(** * SLATE: tile reduction trees, band-matrix views and device kernels

    A shallow embedding of parts of the SLATE sources:

    - [include/slate/BandMatrix.hh]: the bandwidth accessors of a band view
      and the update of the origins of its tiles;
    - [src/omptarget/device_geset.cc]: the element-wise "set" device kernel;
    - [src/omptarget/device_gescale_row_col.cc]: the batched row and column
      scaling kernels;
    - [src/internal/internal_ttmlq.cc]: the binary reduction tree that applies
      the Q factor of a triangle-triangle LQ factorisation to a row or column
      of tiles owned by different ranks;
    - [test/test.hh]: rounding up to a multiple and the parsers and printers
      of the enumerations.

    Machine integers ([int], [int64_t]) are embedded as [Z]; the quantities
    that occur (tile counts, tree steps, array offsets) stay far below the
    limits of their types, and the C++ operators [%] and [/] are written as
    the truncating [Z.rem] and [Z.quot]. *)

From Stdlib Require Import ZArith List Bool Lia Sorting.Sorted Permutation.
From Stdlib Require Strings.String Strings.Ascii.
Import ListNotations.

Local Open Scope Z_scope.

(* ====================================================================== *)
(** * Shared vocabulary (slate/enums) *)

Inductive Op := NoTrans | Trans | ConjTrans.
Inductive Side := Left | Right.

Definition Op_eqb (a b : Op) : bool :=
  match a, b with
  | NoTrans, NoTrans | Trans, Trans | ConjTrans, ConjTrans => true
  | _, _ => false
  end.

Definition Side_eqb (a b : Side) : bool :=
  match a, b with
  | Left, Left | Right, Right => true
  | _, _ => false
  end.

(** [0, 1, ..., n-1], the values a counting [for] loop runs through. *)
Definition Zrange (n : Z) : list Z := map Z.of_nat (seq 0 (Z.to_nat n)).

(** [lo, lo+1, ..., hi-1] *)
Definition Zinterval (lo hi : Z) : list Z :=
  map (fun t => lo + Z.of_nat t) (seq 0 (Z.to_nat (hi - lo))).

(* ====================================================================== *)
(** * BandMatrix.hh *)

Module BandMatrix.

(** The state of a [BandMatrix<scalar_t>] that the accessors read and
    write: the transposition [op()] inherited from the base matrix and the
    two protected fields [kl_], [ku_]. *)
Record t := mk { op : Op; kl_ : Z; ku_ : Z }.

(** [int64_t lowerBandwidth() const] *)
Definition lowerBandwidth (A : t) : Z :=
  if Op_eqb (op A) NoTrans then kl_ A else ku_ A.

(** [void lowerBandwidth(int64_t kl)] *)
Definition set_lowerBandwidth (kl : Z) (A : t) : t :=
  if Op_eqb (op A) NoTrans
  then mk (op A) kl (ku_ A)
  else mk (op A) (kl_ A) kl.

(** [int64_t upperBandwidth() const] *)
Definition upperBandwidth (A : t) : Z :=
  if Op_eqb (op A) NoTrans then ku_ A else kl_ A.

(** [void upperBandwidth(int64_t ku)] *)
Definition set_upperBandwidth (ku : Z) (A : t) : t :=
  if Op_eqb (op A) NoTrans
  then mk (op A) (kl_ A) ku
  else mk (op A) ku (ku_ A).

End BandMatrix.

(* ====================================================================== *)
(** * device_geset.cc *)

Module Device.

Section Geset.

(** The element type [scalar_t] of the template. *)
Context {scalar_t : Type}.

(** Device memory: the cells, addressed by element offset, together with
    the log of the addresses stored to (most recent first).  A pointer is
    the offset of its first element. *)
Record Mem := mkMem { load : Z -> scalar_t; stored : list Z }.

(** [p[0] = v] *)
Definition store (p : Z) (v : scalar_t) (M : Mem) : Mem :=
  mkMem (fun a => if a =? p then v else load M a) (p :: stored M).

(** [for (int64_t i = lo; ...; ++i) body(i)], running [cnt] times. *)
Fixpoint for_up {St : Type} (cnt : nat) (i : Z)
         (body : Z -> St -> St) (st : St) : St :=
  match cnt with
  | O => st
  | S c => for_up c (i + 1) body (body i st)
  end.

(** [for (int64_t i = 0; i < hi; ++i) body(i)] *)
Definition for_range {St : Type} (hi : Z) (body : Z -> St -> St) : St -> St :=
  for_up (Z.to_nat hi) 0 body.

(** [rowA[j*lda] = (j != i) ? offdiag_value : diag_value] with
    [rowA = &A[i]]. *)
Definition geset_elem (offdiag_value diag_value : scalar_t)
           (A lda i j : Z) : Mem -> Mem :=
  store (A + i + j * lda)
        (if negb (j =? i) then offdiag_value else diag_value).

(** [device::geset]: the two nested loops behind the quick return.  With
    [lda >= m], as the interface requires, the iterations of the offloaded
    loop store to pairwise different addresses (see
    [geset_addresses_NoDup]), so the order in which the teams run them is
    immaterial; they are run in index order here. *)
Definition geset (m n : Z) (offdiag_value diag_value : scalar_t)
           (A lda : Z) (M : Mem) : Mem :=
  if (m =? 0) || (n =? 0) then M
  else
    for_range m (fun i =>
      for_range n (fun j =>
        geset_elem offdiag_value diag_value A lda i j)) M.

(** [device::batch::geset]: [Aarray] holds the pointers to the tiles. *)
Definition batch_geset (m n : Z) (offdiag_value diag_value : scalar_t)
           (Aarray : list Z) (lda batch_count : Z) (M : Mem) : Mem :=
  if batch_count =? 0 then M
  else if (m =? 0) || (n =? 0) then M
  else
    for_range batch_count (fun k =>
      for_range m (fun i =>
        for_range n (fun j =>
          let tileA := nth (Z.to_nat k) Aarray 0 in
          geset_elem offdiag_value diag_value tileA lda i j))) M.

(** The stores of the two loops of [geset], in program order; used to
    state what the loops do (see [geset_as_stores]). *)
Definition geset_stores (m n : Z) (offdiag_value diag_value : scalar_t)
           (A lda : Z) : list (Z * scalar_t) :=
  flat_map (fun i =>
    map (fun j => (A + i + j * lda,
                   if negb (j =? i) then offdiag_value else diag_value))
        (Zrange n))
    (Zrange m).

Definition do_store (M : Mem) (w : Z * scalar_t) : Mem :=
  store (fst w) (snd w) M.

End Geset.

Arguments Mem : clear implicits.

End Device.

(* ====================================================================== *)
(** * internal_ttmlq.cc *)

Module Ttmlq.

(** What [ttmlq] asks of a [Matrix<scalar_t>]: the tile counts, the
    distribution function and the rank of the calling process. *)
Record Matrix := mkMatrix {
  mt : Z;
  nt : Z;
  tileRank : Z -> Z -> Z;
  mpi_rank : Z
}.

(** Modelled from the spec: [Matrix::tileIsLocal] is declared in
    slate/BaseMatrix.hh, which is not among the sources; section 4.1 gives
    [isLocalOrigin(coord)] as true iff [owner(coord) == thisRank]. *)
Definition tileIsLocal (M : Matrix) (i j : Z) : bool :=
  tileRank M i j =? mpi_rank M.

(** [std::set<int>::insert]: the set is kept as its ascending sequence. *)
Fixpoint set_insert (r : Z) (s : list Z) : list Z :=
  match s with
  | [] => [r]
  | x :: s' =>
      if r <? x then r :: s
      else if r =? x then s
      else x :: set_insert r s'
  end.

(** Modelled from the spec: [Matrix::getRanks] is defined in
    slate/BaseMatrix.hh, which is not among the sources; section 4.2 gives
    [ranksIn(setOfCoords)] as the set of the ranks owning the coordinates.
    The set is filled tile by tile, and read in ascending order as a
    [std::set<int>] is. *)
Definition getRanks (A : Matrix) : list Z :=
  fold_left
    (fun s i => fold_left (fun s j => set_insert (tileRank A i j) s)
                          (Zrange (nt A)) s)
    (Zrange (mt A)) [].

(** The inner loop of lines 76-81: the first [j] from [j] on, within [cnt]
    columns, whose tile in row 0 is owned by rank [r]. *)
Fixpoint first_col (A : Matrix) (r : Z) (cnt : nat) (j : Z) : option Z :=
  match cnt with
  | O => None
  | S c => if tileRank A 0 j =? r then Some j else first_col A r c (j + 1)
  end.

(** Lines 73-82: one [push_back] per rank of the set that owns a tile. *)
Definition rank_indices_unsorted (A : Matrix) : list (Z * Z) :=
  flat_map
    (fun r => match first_col A r (Z.to_nat (nt A)) 0 with
              | Some j => [(r, j)]
              | None => []
              end)
    (getRanks A).

(** Modelled from the spec: [compareSecond] is defined in
    internal/internal_util.hh, which is not among the sources; the call site
    documents it ("Sort rank_indices by index"): pairs are ordered by their
    second component. *)
Definition compareSecond (a b : Z * Z) : bool := snd a <? snd b.

(** [std::sort] with [compareSecond], as an insertion sort.  The second
    components of [rank_indices] are pairwise different, so every sorting
    algorithm returns this same sequence (see [sort_result_unique]). *)
Fixpoint sort_insert (x : Z * Z) (l : list (Z * Z)) : list (Z * Z) :=
  match l with
  | [] => [x]
  | y :: l' => if compareSecond x y then x :: l else y :: sort_insert x l'
  end.

Definition sort_by_second (l : list (Z * Z)) : list (Z * Z) :=
  fold_right sort_insert [] l.

(** Lines 67-85. *)
Definition rank_indices (A : Matrix) : list (Z * Z) :=
  sort_by_second (rank_indices_unsorted A).

(** [j] is the first column in [lo, hi) whose tile in row 0 rank [r] owns. *)
Definition is_first_col (A : Matrix) (r lo hi j : Z) : Prop :=
  lo <= j < hi /\ tileRank A 0 j = r /\
  forall j', lo <= j' < j -> tileRank A 0 j' <> r.

(** The orders [rank_indices] is compared with. *)
Definition le_second (a b : Z * Z) : Prop := snd a <= snd b.
Definition lt_second (a b : Z * Z) : Prop := snd a < snd b.

(** [Option::TileReleaseStrategy] *)
Inductive TileReleaseStrategy := StrategyNone | StrategyInternal | StrategySlate | StrategyAll.

(** Lines 64-65. *)
Definition call_tile_tick_of (s : TileReleaseStrategy) : bool :=
  match s with
  | StrategyInternal | StrategyAll => true
  | _ => false
  end.

(** What one rank does to tiles during [ttmlq], in program order. *)
Inductive Event :=
| AGetForReading (j : Z)               (* A.tileGetForReading(0, j, ...) *)
| TGetForReading (j : Z)               (* T.tileGetForReading(0, j, ...) *)
| CGetForWriting (i j : Z)             (* C.tileGetForWriting(i, j, ...) *)
| CSend (i j dst tag : Z)              (* C.tileSend(i, j, dst, tag) *)
| CRecv (i j src tag : Z)              (* C.tileRecv(i, j, src, layout, tag) *)
| CAssertModified (i j : Z)            (* assert on C.tileState(i, j, HostNum) *)
| Tpmlqt (rank_ind i1 j1 i j : Z)      (* tpmlqt(.., A(0,rank_ind), T(0,rank_ind),
                                                 C(i1,j1), C(i,j)) *)
| ATick (j : Z)                        (* A.tileTick(0, j) *)
| TTick (j : Z)                        (* T.tileTick(0, j) *)
| CTick (i j : Z).                     (* C.tileTick(i, j) *)

Section Tree.

Variables (side : Side) (op : Op) (C : Matrix) (tag : Z).
Variable call_tile_tick : bool.
Variable rank_indices : list (Z * Z).

(** [int nranks = rank_indices.size()] *)
Definition nranks : Z := Z.of_nat (length rank_indices).

(** [rank_indices[ index ].second] *)
Definition second_at (index : Z) : Z :=
  snd (nth (Z.to_nat index) rank_indices (0, 0)).

(** Lines 116-121. *)
Definition k_end : Z :=
  match side with Left => nt C | Right => mt C end.

(** The tile of [C] in the row (column) [r] of the panel and the column
    (row) [k] of the trailing dimension: lines 130-137 and their copies. *)
Definition tile_of (r k : Z) : Z * Z :=
  match side with Left => (r, k) | Right => (k, r) end.

(** First loop over [k] (lines 129-173): send, or receive. *)
Definition loop1 (index step k : Z) : list Event :=
  let rank_ind := second_at index in
  let '(i, j) := tile_of rank_ind k in
  if tileIsLocal C i j then
    if Z.rem index (2 * step) =? 0 then
      if index + step <? nranks then
        let k_dst := second_at (index + step) in
        let '(i_dst, j_dst) := tile_of k_dst k in
        let dst := tileRank C i_dst j_dst in
        [CGetForWriting i j; CSend i j dst tag]
      else []
    else
      let k_src := second_at (index - step) in
      let '(i1, j1) := tile_of k_src k in
      let src := tileRank C i1 j1 in
      [CRecv i1 j1 src tag]
  else [].

(** Second loop over [k] (lines 175-219): the update tasks. *)
Definition loop2 (index step k : Z) : list Event :=
  let rank_ind := second_at index in
  let '(i, j) := tile_of rank_ind k in
  if tileIsLocal C i j then
    if negb (Z.rem index (2 * step) =? 0) then
      let k_src := second_at (index - step) in
      let '(i1, j1) := tile_of k_src k in
      [AGetForReading rank_ind; TGetForReading rank_ind; CGetForWriting i j;
       Tpmlqt rank_ind i1 j1 i j]
      ++ (if call_tile_tick then [ATick rank_ind; TTick rank_ind] else [])
    else []
  else [].

(** Third loop over [k] (lines 221-266): receive back, or send back. *)
Definition loop3 (index step k : Z) : list Event :=
  let rank_ind := second_at index in
  let '(i, j) := tile_of rank_ind k in
  if tileIsLocal C i j then
    if Z.rem index (2 * step) =? 0 then
      if index + step <? nranks then
        let k_dst := second_at (index + step) in
        let '(i_dst, j_dst) := tile_of k_dst k in
        let dst := tileRank C i_dst j_dst in
        [CAssertModified i j; CRecv i j dst tag]
      else []
    else
      let k_src := second_at (index - step) in
      let '(i1, j1) := tile_of k_src k in
      let src := tileRank C i1 j1 in
      CSend i1 j1 src tag :: (if call_tile_tick then [CTick i1 j1] else [])
  else [].

(** The body of the loop over [index] (lines 125-266).  The tasks of the
    second loop are joined by the task group before the third loop starts;
    they work on different tiles and are listed in the order of their
    creation. *)
Definition index_body (index step : Z) : list Event :=
  flat_map (loop1 index step) (Zrange k_end)
  ++ flat_map (loop2 index step) (Zrange k_end)
  ++ flat_map (loop3 index step) (Zrange k_end).

(** [for (int index = 0; index < nranks; index += step)] from [index] on.
    [None]: the loop is still running after [fuel] tests of its condition. *)
Fixpoint index_loop (fuel : nat) (index step : Z) : option (list Event) :=
  match fuel with
  | O => None
  | S f =>
      if index <? nranks then
        match index_loop f (index + step) step with
        | Some rest => Some (index_body index step ++ rest)
        | None => None
        end
      else Some []
  end.

(** [for (int level = 0; level < nlevels; ++level)] with [levels] levels
    still to run (lines 123-272).  The result lists, level by level, the
    step the level ran with and what the rank did in it.  The loop over
    [index] is given [nranks + 1] tests of its condition, which is all it
    can use when [step] is positive. *)
Fixpoint level_loop (descend : bool) (levels : nat) (step : Z)
  : option (list (Z * list Event)) :=
  match levels with
  | O => Some []
  | S l =>
      match index_loop (S (length rank_indices)) 0 step with
      | Some evs =>
          match level_loop descend l
                  (if descend then Z.quot step 2 else step * 2) with
          | Some rest => Some ((step, evs) :: rest)
          | None => None
          end
      | None => None
      end
  end.

(** [int nlevels = int( ceil( log2( nranks ) ) )].  For every [int]
    argument from 1 on, the double-precision [log2] is exact at the powers
    of two and lies strictly between two integers elsewhere, so the result
    is the integer ceiling of the binary logarithm.  (An empty panel,
    [nranks = 0], has no level to run.) *)
Definition nlevels : Z := Z.log2_up nranks.

(** Line 106. *)
Definition descend : bool :=
  negb (Bool.eqb (Side_eqb side Left) (Op_eqb op NoTrans)).

(** Lines 107-111; [pow(2, -1)] is 0.5 and converts to the [int] 0, which
    is also what [2 ^ (-1)] is in [Z]. *)
Definition first_step : Z :=
  if descend then 2 ^ (nlevels - 1) else 1.

(** Lines 87-272. *)
Definition tree : option (list (Z * list Event)) :=
  level_loop descend (Z.to_nat nlevels) first_step.

End Tree.

(** [internal::ttmlq], host implementation: the levels run by the calling
    rank, each with its step and its events.  [None] stands for a run that
    does not return.  The function asserts [A.mt() == 1] and that [A_nt] is
    [C.mt()] on the left and [C.nt()] on the right; [T] is only acquired for
    reading. *)
Definition ttmlq (side : Side) (op : Op) (A C : Matrix) (tag : Z)
           (strategy : TileReleaseStrategy) : option (list (Z * list Event)) :=
  tree side op C tag (call_tile_tick_of strategy) (rank_indices A).

(** The events of a run, in program order. *)
Definition events (r : option (list (Z * list Event))) : option (list Event) :=
  option_map (fun lv => concat (map snd lv)) r.

(** The steps of the levels of a run. *)
Definition steps (r : option (list (Z * list Event))) : option (list Z) :=
  option_map (map fst) r.

End Ttmlq.

(* ====================================================================== *)
(** * The reduction tree as the specification words it *)

Module TreeSpec.
Import Ttmlq.

(** [L] is the ceiling of the binary logarithm of [N]: the least number of
    doublings that reach [N] from 1. *)
Definition is_ceil_log2 (N L : Z) : Prop :=
  0 <= L /\ N <= 2 ^ L /\ forall L', 0 <= L' -> N <= 2 ^ L' -> L <= L'.

(** The steps of [L] levels: from [2^(L-1)] down to 1 when the tree is
    walked from the root to the leaves, from 1 up to [2^(L-1)] when it is
    walked from the leaves to the root. *)
Definition schedule (descend : bool) (L : Z) : list Z :=
  if descend then map (fun t => 2 ^ (L - 1 - t)) (Zrange L)
  else map (fun t => 2 ^ t) (Zrange L).

(** The steps as the loop updates them, level after level. *)
Fixpoint step_sequence (descend : bool) (levels : nat) (step : Z) : list Z :=
  match levels with
  | O => []
  | S l =>
      step :: step_sequence descend l
                (if descend then Z.quot step 2 else step * 2)
  end.

(** The tag of a tile transfer. *)
Definition transfer_tag (e : Event) : option Z :=
  match e with
  | CSend _ _ _ tag | CRecv _ _ _ tag => Some tag
  | _ => None
  end.

(** The direction of the reduction, as the comment before the levels
    words it: root to leaves for (Left, Trans) and (Right, NoTrans), leaves
    to root for (Left, NoTrans) and (Right, Trans); a conjugate transpose
    goes the way of the transpose. *)
Definition root_to_leaf (side : Side) (op : Op) : bool :=
  match side, op with
  | Left, NoTrans => false
  | Left, _ => true
  | Right, NoTrans => true
  | Right, _ => false
  end.

Section Roles.

Variables (side : Side) (C : Matrix) (tag : Z).
Variable call_tile_tick : bool.
Variable rank_indices : list (Z * Z).

(** The number of participants. *)
Definition N : Z := Z.of_nat (length rank_indices).

(** The participant indices that are multiples of [step]. *)
Definition participants (step : Z) : list Z :=
  filter (fun index => index mod step =? 0) (Zrange N).

(** The block column [j_r] of the panel that participant [index] stands
    for. *)
Definition first_column (index : Z) : Z :=
  snd (nth (Z.to_nat index) rank_indices (0, 0)).

(** The extent of the trailing dimension of [C]: its block columns when
    the reflectors are applied from the left, its block rows when from the
    right. *)
Definition trailing_count : Z :=
  match side with
  | Left => nt C
  | Right => mt C
  end.

(** The trailing tile of participant [index] at position [k] of the
    trailing dimension. *)
Definition trailing_tile (index k : Z) : Z * Z :=
  match side with
  | Left => (first_column index, k)
  | Right => (k, first_column index)
  end.

(** The positions at which the calling rank owns the trailing tile of
    participant [index]. *)
Definition local_positions (index : Z) : list Z :=
  filter (fun k => tileIsLocal C (fst (trailing_tile index k))
                               (snd (trailing_tile index k)))
         (Zrange trailing_count).

(** The rank that holds the trailing tile of participant [index] at
    position [k]. *)
Definition holder (index k : Z) : Z :=
  tileRank C (fst (trailing_tile index k)) (snd (trailing_tile index k)).

(** Send every local trailing tile to the partner. *)
Definition sends (index partner : Z) : list Event :=
  flat_map (fun k =>
      let '(i, j) := trailing_tile index k in
      [CGetForWriting i j; CSend i j (holder partner k) tag])
    (local_positions index).

(** Receive the updated tile back into the tile that was sent. *)
Definition receives_back (index partner : Z) : list Event :=
  flat_map (fun k =>
      let '(i, j) := trailing_tile index k in
      [CAssertModified i j; CRecv i j (holder partner k) tag])
    (local_positions index).

(** (a) Send every local trailing tile to the partner, and later receive
    the updated tile back into the same tile. *)
Definition send_then_receive_back (index partner : Z) : list Event :=
  sends index partner ++ receives_back index partner.

(** Receive the partner's tile for every local trailing tile. *)
Definition receives (index partner : Z) : list Event :=
  flat_map (fun k =>
      let '(i1, j1) := trailing_tile partner k in
      [CRecv i1 j1 (holder partner k) tag])
    (local_positions index).

(** The update of the local trailing tile at position [k]: the kernel is
    applied to the panel tiles [A(0, j_r)], [T(0, j_r)], the received tile
    and the local trailing tile. *)
Definition update_task (index partner k : Z) : list Event :=
  let j_r := first_column index in
  let '(i, j) := trailing_tile index k in
  let '(i1, j1) := trailing_tile partner k in
  [AGetForReading j_r; TGetForReading j_r; CGetForWriting i j;
   Tpmlqt j_r i1 j1 i j]
  ++ (if call_tile_tick then [ATick j_r; TTick j_r] else []).

(** Send the received tile, updated, back to the partner. *)
Definition sends_back (index partner : Z) : list Event :=
  flat_map (fun k =>
      let '(i1, j1) := trailing_tile partner k in
      CSend i1 j1 (holder partner k) tag
      :: (if call_tile_tick then [CTick i1 j1] else []))
    (local_positions index).

(** (b) Receive the partner's tile, apply the kernel, and send the
    received tile, updated, back to the partner. *)
Definition receive_update_send_back (index partner : Z) : list Event :=
  receives index partner
  ++ flat_map (update_task index partner) (local_positions index)
  ++ sends_back index partner.

(** What participant [index] does at a level with step [s]. *)
Definition role (s index : Z) : list Event :=
  if index mod (2 * s) =? 0 then
    if index + s <? N then send_then_receive_back index (index + s)
    else []
  else receive_update_send_back index (index - s).

Definition level_events (s : Z) : list Event :=
  flat_map (role s) (participants s).

(** The role of participant [index] at a level with step [s], as a
    property of what the calling rank does for it.  The update tasks of
    one participant form a task group: they may run in any order, between
    the receipts before them and the sends after them. *)
Inductive plays_role (s index : Z) : list Event -> Prop :=
| plays_sender :
    index mod (2 * s) = 0 -> index + s < N ->
    plays_role s index
      (sends index (index + s) ++ receives_back index (index + s))
| plays_unpartnered :
    index mod (2 * s) = 0 -> N <= index + s ->
    plays_role s index []
| plays_receiver ks :
    index mod (2 * s) <> 0 ->
    Permutation ks (local_positions index) ->
    plays_role s index
      (receives index (index - s)
       ++ flat_map (update_task index (index - s)) ks
       ++ sends_back index (index - s)).

End Roles.

(** The levels of a whole reduction. *)
Definition expected (side : Side) (op : Op) (C : Matrix) (tag : Z)
           (call_tile_tick : bool) (rank_indices : list (Z * Z))
  : list (Z * list Event) :=
  map (fun s => (s, level_events side C tag call_tile_tick rank_indices s))
      (schedule (root_to_leaf side op)
                (Z.log2_up (Z.of_nat (length rank_indices)))).

End TreeSpec.

(* ====================================================================== *)
(** * The coherency protocol of the tile directory *)

Module Coherency.
Import Ttmlq.

(** Modelled from the spec: the coherency states, the tile directory and
    its operations are implemented in slate/Tile.hh, slate/BaseMatrix.hh and
    slate/internal/MatrixStorage.hh, none of which is among the sources;
    [internal_ttmlq.cc] only calls them.  The definitions of this module
    follow sections 3, 4.1 and 4.2 of the specification. *)
Inductive MOSI := Invalid | Shared | Owned | Modified.

Definition MOSI_eqb (a b : MOSI) : bool :=
  match a, b with
  | Invalid, Invalid | Shared, Shared | Owned, Owned | Modified, Modified => true
  | _, _ => false
  end.

(** A tile handle: its coherency state and its count of outstanding
    readers and writers. *)
Record Handle := mkHandle { state : MOSI; refs : nat }.

(** Memory locations are numbered as in the call [tileState(i, j, HostNum)]:
    the host, then the devices [0 .. num_devices - 1]. *)
Definition HostNum : Z := -1.

(** The table keyed by tile coordinate and location; a handle that was
    never created reads as [Invalid] with no reference. *)
Definition Directory := Z * Z -> Z -> Handle.

Definition coord_eqb (a b : Z * Z) : bool :=
  (fst a =? fst b) && (snd a =? snd b).

Section Protocol.

Variable num_devices : nat.

Definition devices : list Z := map Z.of_nat (seq 0 num_devices).

Definition is_location (l : Z) : bool :=
  (l =? HostNum) || ((0 <=? l) && (l <? Z.of_nat num_devices)).

(** Replace the handles of coordinate [c], location by location. *)
Definition update (c : Z * Z) (f : Z -> Handle -> Handle) (d : Directory)
  : Directory :=
  fun c' l => if coord_eqb c' c then f l (d c' l) else d c' l.

(** Modelled from the spec: section 3 sets a refreshed copy to [Shared],
    or to [Owned] if it becomes the refresh source for others, and does not
    say when that is; [refresh_source c l d] stands for whatever decides
    it. *)
Variable refresh_source : Z * Z -> Z -> Directory -> bool.

(** Modelled from the spec: [acquireForReading] of sections 3 and 4.1.  An
    [Invalid] copy is refreshed from a non-[Invalid] location of the rank
    or fetched from a remote rank, and is then [Shared] (or [Owned]); the
    reference count of the acquired handle goes up by one.  The handles at
    the other locations are left as they are. *)
Definition acquireForReading (c : Z * Z) (l : Z) (d : Directory) : Directory :=
  if negb (is_location l) then d
  else
    update c (fun l' h =>
      if l' =? l then
        match state h with
        | Invalid =>
            mkHandle (if refresh_source c l d then Owned else Shared)
                     (S (refs h))
        | st => mkHandle st (S (refs h))
        end
      else h) d.

(** The locations of the rank other than [l]. *)
Definition candidates (l : Z) : list Z :=
  filter (fun s => negb (s =? l))
         (if l =? HostNum then devices else devices ++ [HostNum]).

(** Modelled from the spec: the [ConflictError] of section 4.1.  A write
    acquisition at [l] conflicts when a writer still holds a [Modified]
    copy at another location. *)
Definition conflict (c : Z * Z) (l : Z) (d : Directory) : bool :=
  existsb (fun s => MOSI_eqb (state (d c s)) Modified
                    && negb (Nat.eqb (refs (d c s)) 0))
          (candidates l).

(** Modelled from the spec: [acquireForWriting] of sections 3 and 4.1.
    Every other location of the coordinate becomes [Invalid] and the
    acquirer [Modified], with one more reference; [None] is the
    [ConflictError]. *)
Definition acquireForWriting (c : Z * Z) (l : Z) (d : Directory)
  : option Directory :=
  if negb (is_location l) then Some d
  else if conflict c l d then None
  else Some (update c (fun l' h =>
               if l' =? l then mkHandle Modified (S (refs h))
               else mkHandle Invalid (refs h)) d).

(** Modelled from the spec: [release] of section 4.1.  One reference less;
    at zero it is a no-op. *)
Definition release (c : Z * Z) (l : Z) (d : Directory) : Directory :=
  update c (fun l' h =>
    if l' =? l then mkHandle (state h) (Nat.pred (refs h)) else h) d.

(** Modelled from the spec: the eviction of sections 3 and 4.1.  The
    storage of a copy without references that is not [Modified] may be
    reclaimed. *)
Definition evict (c : Z * Z) (l : Z) (d : Directory) : Directory :=
  update c (fun l' h =>
    if (l' =? l) && Nat.eqb (refs h) 0 && negb (MOSI_eqb (state h) Modified)
    then mkHandle Invalid 0 else h) d.

(** Modelled from the spec: [receive] of section 4.2.  The payload is
    deposited at [l] with state [Shared]; the handles at the other
    locations are left as they are. *)
Definition receive (c : Z * Z) (l : Z) (d : Directory) : Directory :=
  if negb (is_location l) then d
  else update c (fun l' h =>
         if l' =? l then mkHandle Shared (refs h) else h) d.

(** The operations of the protocol. *)
Inductive DirOp :=
| AcquireForReading (c : Z * Z) (l : Z)
| AcquireForWriting (c : Z * Z) (l : Z)
| Release (c : Z * Z) (l : Z)
| Evict (c : Z * Z) (l : Z)
| Receive (c : Z * Z) (l : Z).

(** One operation; a failed write acquisition leaves the directory as it
    is. *)
Definition dir_step (o : DirOp) (d : Directory) : Directory :=
  match o with
  | AcquireForReading c l => acquireForReading c l d
  | AcquireForWriting c l =>
      match acquireForWriting c l d with Some d' => d' | None => d end
  | Release c l => release c l d
  | Evict c l => evict c l d
  | Receive c l => receive c l d
  end.

(** A directory as a matrix is constructed: copies exist on the host at
    most, none of them being written. *)
Definition initial (d : Directory) : Prop :=
  forall c l, state (d c l) <> Modified /\
              (l <> HostNum -> state (d c l) = Invalid).

Inductive reachable : Directory -> Prop :=
| reachable_initial d : initial d -> reachable d
| reachable_step o d : reachable d -> reachable (dir_step o d).

(** The invariant of section 3, in its two halves. *)
Definition at_most_one_Modified (d : Directory) (c : Z * Z) : Prop :=
  forall l1 l2, state (d c l1) = Modified -> state (d c l2) = Modified ->
                l1 = l2.

Definition Modified_excludes_others (d : Directory) (c : Z * Z) : Prop :=
  forall l l', state (d c l) = Modified -> l' <> l ->
               state (d c l') = Invalid.

(** How a run of [ttmlq] ends on the directory of [C]. *)
Inductive Outcome :=
| Completed (d : Directory)
| ConflictError
| AssertionFailed.

(** The effect of one event of [ttmlq] on the directory of [C].  The tiles
    of [A] and [T] live in the directories of their own matrices, and the
    kernel works in place on tiles that are already acquired. *)
Definition exec_event (e : Event) (d : Directory) : Outcome :=
  match e with
  | CGetForWriting i j =>
      match acquireForWriting (i, j) HostNum d with
      | Some d' => Completed d'
      | None => ConflictError
      end
  | CRecv i j _ _ => Completed (receive (i, j) HostNum d)
  | CTick i j => Completed (release (i, j) HostNum d)
  | CAssertModified i j =>
      if MOSI_eqb (state (d (i, j) HostNum)) Modified
      then Completed d else AssertionFailed
  | CSend _ _ _ _ | AGetForReading _ | TGetForReading _
  | Tpmlqt _ _ _ _ _ | ATick _ | TTick _ => Completed d
  end.

Fixpoint run_events (evs : list Event) (d : Directory) : Outcome :=
  match evs with
  | [] => Completed d
  | e :: rest =>
      match exec_event e d with
      | Completed d' => run_events rest d'
      | stop => stop
      end
  end.

End Protocol.

(** The round trip of section 8 on a rank with one device, from a
    directory without any copy: the tile is acquired for writing on the
    device and released, then acquired for reading on the host. *)
Definition round_trip : Directory :=
  let rs := fun _ _ _ => false in
  dir_step 1 rs (AcquireForReading (0, 0) HostNum)
    (dir_step 1 rs (Release (0, 0) 0)
       (dir_step 1 rs (AcquireForWriting (0, 0) 0)
          (fun _ _ => mkHandle Invalid 0))).

End Coherency.

(* ====================================================================== *)
(** * Several ranks running the reduction together *)

Module Network.
Import Ttmlq.

(** Four ranks, a panel [A] of one row of four tiles and a trailing row [C]
    of four tiles, tile [j] of each owned by rank [j]; [me] is the rank
    that looks at them. *)
Definition A4 (me : Z) : Matrix := mkMatrix 1 4 (fun _ j => j) me.
Definition C4 (me : Z) : Matrix := mkMatrix 1 4 (fun _ j => j) me.

Section Kernel.

(** The contents of tiles. *)
Variable V : Type.

(** Modelled from the spec: the kernel [tpmlqt] is defined in
    internal/Tile_tpmlqt.hh, which is not among the sources; sections 1 and
    6 treat it as opaque, working in place on the tile buffers acquired for
    it.  Of the tiles it is given (lines 207-209) the panel tiles are
    acquired for reading; the two tiles of [C] are the received one and the
    one acquired for writing.  [tp1 r c1 c2] and [tp2 r c1 c2] stand for
    what the kernel leaves in the first and in the second of them when it
    is given the panel tiles [A(0, r)], [T(0, r)] and tiles of [C] with the
    contents [c1] and [c2].  Nothing is assumed about them. *)
Variables tp1 tp2 : Z -> V -> V -> V.

(** The content of tile [(i, j)] of [C] before the reduction, and the
    content of a tile of which the rank has no copy yet. *)
Variable orig : Z -> Z -> V.
Variable nodata : V.

(** The host copies of the tiles a rank holds. *)
Definition Tiles := Z * Z -> V.

Definition put (c : Z * Z) (v : V) (t : Tiles) : Tiles :=
  fun c' => if Coherency.coord_eqb c' c then v else t c'.

(** Before the reduction a rank holds the tiles it owns. *)
Definition own_tiles (C : Matrix) : Tiles :=
  fun c => if tileIsLocal C (fst c) (snd c) then orig (fst c) (snd c)
           else nodata.

(** Modelled from the spec: [tileSend] and [tileRecv] are defined in
    slate/BaseMatrix.hh, which is not among the sources.  Section 4.2: a
    send transmits the tile to the destination rank under the tag and does
    not wait for the receiver; a receive blocks until a message with the
    matching source and tag has arrived and deposits it in the tile.
    Messages between two ranks under one tag are matched in the order they
    were sent. *)
Record Message := mkMessage {
  msg_src : Z;
  msg_dst : Z;
  msg_tag : Z;
  payload : V
}.

Definition matches (src dst tag : Z) (m : Message) : bool :=
  (msg_src m =? src) && (msg_dst m =? dst) && (msg_tag m =? tag).

(** The first message in flight that matches, taken out of the network. *)
Fixpoint take (src dst tag : Z) (net : list Message)
  : option (V * list Message) :=
  match net with
  | [] => None
  | m :: net' =>
      if matches src dst tag m then Some (payload m, net')
      else match take src dst tag net' with
           | Some (v, rest) => Some (v, m :: rest)
           | None => None
           end
  end.

(** A rank runs its events until it is done or blocks in a receive.  The
    kernel works in place on the two tiles of [C] it is given. *)
Fixpoint advance (me : Z) (evs : list Event) (t : Tiles) (net : list Message)
  : list Event * Tiles * list Message :=
  match evs with
  | [] => ([], t, net)
  | CSend i j dst tag :: rest =>
      advance me rest t (net ++ [mkMessage me dst tag (t (i, j))])
  | CRecv i j src tag :: rest =>
      match take src me tag net with
      | Some (v, net') => advance me rest (put (i, j) v t) net'
      | None => (evs, t, net)
      end
  | Tpmlqt r i1 j1 i j :: rest =>
      let c1 := t (i1, j1) in
      let c2 := t (i, j) in
      advance me rest (put (i, j) (tp2 r c1 c2) (put (i1, j1) (tp1 r c1 c2) t))
              net
  | _ :: rest => advance me rest t net
  end.

(** A process: its rank, the events it still has to run and its tiles. *)
Record Process := mkProcess {
  proc_rank : Z;
  pending : list Event;
  tiles : Tiles
}.

(** Every rank in turn advances as far as it can. *)
Fixpoint round (ps : list Process) (net : list Message)
  : list Process * list Message :=
  match ps with
  | [] => ([], net)
  | p :: ps' =>
      let '(evs, t, net1) := advance (proc_rank p) (pending p) (tiles p) net in
      let '(ps'', net2) := round ps' net1 in
      (mkProcess (proc_rank p) evs t :: ps'', net2)
  end.

Definition all_done (ps : list Process) : bool :=
  forallb (fun p => match pending p with [] => true | _ => false end) ps.

(** Rounds until every rank is done; [None] when [fuel] rounds were not
    enough. *)
Fixpoint run (fuel : nat) (ps : list Process) (net : list Message)
  : option (list Process) :=
  if all_done ps then Some ps
  else match fuel with
       | O => None
       | S f => let '(ps', net') := round ps net in run f ps' net'
       end.

(** The ranks [0 .. nprocs - 1] run [ttmlq] on the same distributed
    matrices, each holding the tiles of [C] it owns. *)
Definition start (side : Side) (op : Op) (A C : Z -> Matrix) (tag : Z)
           (strategy : TileReleaseStrategy) (nprocs : Z)
  : option (list Process) :=
  fold_right
    (fun me acc =>
       match events (ttmlq side op (A me) (C me) tag strategy), acc with
       | Some evs, Some ps => Some (mkProcess me evs (own_tiles (C me)) :: ps)
       | _, _ => None
       end)
    (Some []) (Zrange nprocs).

(** The tile at [c] that rank [me] holds in the end. *)
Definition final_tile (ps : option (list Process)) (me : Z) (c : Z * Z)
  : option V :=
  match ps with
  | Some l =>
      option_map (fun p => tiles p c)
                 (find (fun p => proc_rank p =? me) l)
  | None => None
  end.

(** The scenario of section 8 on [A4] and [C4], leaf to root: [Side::Right]
    with [Op::Trans]. *)
Definition scenario_start : option (list Process) :=
  start Right Trans A4 C4 0 StrategyAll 4.

Definition scenario_end : option (list Process) :=
  match scenario_start with
  | Some ps => run 8 ps []
  | None => None
  end.

End Kernel.

(** A kernel that writes both tiles: the content of a tile is recorded as
    the expression that produced it. *)
Inductive Val :=
| NoData
| Orig (i j : Z)
| Tp1 (r : Z) (c1 c2 : Val)
| Tp2 (r : Z) (c1 c2 : Val).

End Network.

(* ====================================================================== *)
(** * The reduction tree seen from all ranks *)

Module TreeMore.
Import Ttmlq.

(** The matrix [C] as the process of rank [me] has it: the same tiles and
    the same distribution, with [me] as the rank of the process. *)
Definition on_rank (C : Matrix) (me : Z) : Matrix :=
  mkMatrix (mt C) (nt C) (tileRank C) me.

(** The calls of [tileTick]. *)
Definition is_tick (e : Event) : bool :=
  match e with
  | ATick _ | TTick _ | CTick _ _ => true
  | _ => false
  end.

(** The tile of [C] an event acquires for writing, or hands to the kernel
    as the tile acquired for writing. *)
Definition written_tile (e : Event) : option (Z * Z) :=
  match e with
  | CGetForWriting i j => Some (i, j)
  | Tpmlqt _ _ _ i j => Some (i, j)
  | _ => None
  end.

(** At a level with step [s] the index is visited and takes the branch of
    the receiver: [index] is a multiple of [s] and [index % (2*s) != 0]. *)
Definition is_receiver (index s : Z) : bool :=
  (index mod s =? 0) && negb (index mod (2 * s) =? 0).

(** The call of the kernel with the panel tiles of block column [r] on the
    tile [c] of [C] that the task acquired for writing. *)
Definition is_kernel_on (r : Z) (c : Z * Z) (e : Event) : bool :=
  match e with
  | Tpmlqt r' _ _ i j => (r' =? r) && (i =? fst c) && (j =? snd c)
  | _ => false
  end.

(** A level of a run in which that call occurs. *)
Definition combines (r : Z) (c : Z * Z) (level : Z * list Event) : bool :=
  existsb (is_kernel_on r c) (snd level).

Import TreeSpec.

(** A transfer of participant [index] at a level with step [s], on the
    rank that runs it: the tile [(i, j)], the peer rank and the tag.  A
    sender index transfers its own tile with the holder of the partner's
    tile, a receiver index the partner's tile with the holder of that
    tile. *)
Definition transfer_of (side : Side) (C : Matrix) (tag : Z)
           (ri : list (Z * Z)) (s index : Z) (i j peer t : Z) : Prop :=
  exists k,
    In k (local_positions side C ri index) /\ t = tag /\
    ((index mod (2 * s) = 0 /\ index + s < N ri /\
      (i, j) = trailing_tile side ri index k /\
      peer = holder side C ri (index + s) k) \/
     (index mod (2 * s) <> 0 /\
      (i, j) = trailing_tile side ri (index - s) k /\
      peer = holder side C ri (index - s) k)).

End TreeMore.

(* ====================================================================== *)
(** * BandMatrix.hh: tileUpdateAllOrigin *)

Module BandOrigin.
Import Ttmlq.

(** Modelled from the spec: [ceildiv] is defined in slate/internal/util.hh,
    which is not among the sources, and the specification does not word it;
    by its name and its use for tile counts it is the quotient rounded up,
    [(x + y - 1) / y] in integer arithmetic. *)
Definition ceildiv (x y : Z) : Z := Z.quot (x + y - 1) y.

(** [BandMatrix::tileUpdateAllOrigin]: the tiles [tileUpdateOrigin] is
    called on, in the order of the calls.  [B] holds the fields of the band
    matrix, [base] what the loops ask of the base matrix, and [tileNb0] is
    [tileNb(0)]. *)
Definition tileUpdateAllOrigin (B : BandMatrix.t) (base : Matrix)
           (tileNb0 : Z) : list (Z * Z) :=
  let klt := ceildiv (BandMatrix.kl_ B) tileNb0 in
  let kut := ceildiv (BandMatrix.ku_ B) tileNb0 in
  flat_map (fun j =>
      let istart := Z.max 0 (j - kut) in
      let iend := Z.min (j + klt + 1) (mt base) in
      flat_map (fun i => if tileIsLocal base i j then [(i, j)] else [])
               (Zinterval istart iend))
    (Zrange (nt base)).

End BandOrigin.

(* ====================================================================== *)
(** * device_gescale_row_col.cc *)

Module DeviceScale.
Import Device.

(** [slate::Equed]; the dispatch of [gescale_row_col_batch] names [Row],
    [Col] and [Both], and [None] is the value it names not. *)
Module Equed.
Inductive t := None | Row | Col | Both.
End Equed.

Section Gescale.

(** The element types [scalar_t] of the tiles and [scalar_t2] of the
    scaling factors, with the two products the kernels form:
    [scalar_t * scalar_t2] and [scalar_t2 * scalar_t2]. *)
Context {scalar_t scalar_t2 : Type}.
Variable mul : scalar_t -> scalar_t2 -> scalar_t.
Variable mul2 : scalar_t2 -> scalar_t2 -> scalar_t2.

(** The device memory the factors are read from; the kernels take it as
    [const] and never store to it. *)
Variable factors : Z -> scalar_t2.

(** [p[0] = p[0] * x] *)
Definition scale_cell (p : Z) (x : scalar_t2) (M : Mem scalar_t)
  : Mem scalar_t :=
  store p (mul (load M p) x) M.

(** [gescale_row_col_batch_kernel] *)
Definition gescale_row_col_batch_kernel (m n : Z) (Rarray Carray : list Z)
           (Aarray : list Z) (lda batch_count : Z) (M : Mem scalar_t)
  : Mem scalar_t :=
  for_range batch_count (fun k =>
    let R := nth (Z.to_nat k) Rarray 0 in
    let C := nth (Z.to_nat k) Carray 0 in
    let tileA := nth (Z.to_nat k) Aarray 0 in
    for_range m (fun i =>
      let ri := factors (R + i) in
      for_range n (fun j =>
        scale_cell (tileA + i + j * lda) (mul2 ri (factors (C + j)))))) M.

(** [gescale_col_batch_kernel] *)
Definition gescale_col_batch_kernel (m n : Z) (Carray : list Z)
           (Aarray : list Z) (lda batch_count : Z) (M : Mem scalar_t)
  : Mem scalar_t :=
  for_range batch_count (fun k =>
    let C := nth (Z.to_nat k) Carray 0 in
    let tileA := nth (Z.to_nat k) Aarray 0 in
    for_range m (fun i =>
      for_range n (fun j =>
        scale_cell (tileA + i + j * lda) (factors (C + j))))) M.

(** [gescale_row_batch_kernel] *)
Definition gescale_row_batch_kernel (m n : Z) (Rarray : list Z)
           (Aarray : list Z) (lda batch_count : Z) (M : Mem scalar_t)
  : Mem scalar_t :=
  for_range batch_count (fun k =>
    let R := nth (Z.to_nat k) Rarray 0 in
    let tileA := nth (Z.to_nat k) Aarray 0 in
    for_range m (fun i =>
      let ri := factors (R + i) in
      for_range n (fun j =>
        scale_cell (tileA + i + j * lda) ri))) M.

(** [gescale_row_col_batch] *)
Definition gescale_row_col_batch (equed : Equed.t) (m n : Z)
           (Rarray Carray : list Z) (Aarray : list Z)
           (lda batch_count : Z) (M : Mem scalar_t) : Mem scalar_t :=
  if batch_count =? 0 then M
  else
    match equed with
    | Equed.Row =>
        gescale_row_batch_kernel m n Rarray Aarray lda batch_count M
    | Equed.Col =>
        gescale_col_batch_kernel m n Carray Aarray lda batch_count M
    | Equed.Both =>
        gescale_row_col_batch_kernel m n Rarray Carray Aarray lda
                                     batch_count M
    | Equed.None => M
    end.

(** The factor the documentation of [gescale_row_col_batch] gives for the
    element [(i, j)] of tile [k]: [R(i)], [C(j)] or their product. *)
Definition factor (equed : Equed.t) (Rarray Carray : list Z) (k i j : Z)
  : option scalar_t2 :=
  let r := factors (nth (Z.to_nat k) Rarray 0 + i) in
  let c := factors (nth (Z.to_nat k) Carray 0 + j) in
  match equed with
  | Equed.None => None
  | Equed.Row => Some r
  | Equed.Col => Some c
  | Equed.Both => Some (mul2 r c)
  end.

End Gescale.

(** The cells of a batch of m-by-n tiles, in the order the loops of the
    batched kernels run through them. *)
Definition batch_cells (m n batch_count : Z) : list (Z * Z * Z) :=
  flat_map (fun k =>
    flat_map (fun i => map (fun j => (k, i, j)) (Zrange n)) (Zrange m))
    (Zrange batch_count).

(** [&Aarray[k][i + j*lda]] *)
Definition cell_address (Aarray : list Z) (lda : Z) (c : Z * Z * Z) : Z :=
  let '(k, i, j) := c in nth (Z.to_nat k) Aarray 0 + i + j * lda.

(** No cell of a tile of the batch is a cell of another tile of it. *)
Definition tiles_apart (m n lda : Z) (Aarray : list Z) (batch_count : Z)
  : Prop :=
  forall k k' i j i' j',
    0 <= k < batch_count -> 0 <= k' < batch_count ->
    0 <= i < m -> 0 <= j < n -> 0 <= i' < m -> 0 <= j' < n ->
    cell_address Aarray lda (k, i, j) = cell_address Aarray lda (k', i', j') ->
    k = k'.

(** A sequence of read-modify-write accesses [p[0] = f(p[0])]. *)
Definition modify_all {scalar_t : Type}
           (us : list (Z * (scalar_t -> scalar_t))) (M : Mem scalar_t)
  : Mem scalar_t :=
  fold_left (fun M u => store (fst u) (snd u (load M (fst u))) M) us M.

End DeviceScale.

(* ====================================================================== *)
(** * test/test.hh *)

Module TestHh.
Import Stdlib.Strings.Ascii Stdlib.Strings.String.

(** The value a 64-bit two's-complement integer takes for the
    mathematical result [z] of an operation: [z] itself inside
    [-2^63, 2^63), wrapped around outside of it. *)
Definition int64_wrap (z : Z) : Z := (z + 2 ^ 63) mod 2 ^ 64 - 2 ^ 63.

Definition int64_max : Z := 2 ^ 63 - 1.

(** [template< typename T > inline T roundup(T x, T y)], at [T = int64_t],
    the integer type of the dimensions in these sources: [x + y], [- 1],
    the truncating quotient and the product are each taken in 64 bits. *)
Definition roundup (x y : Z) : Z :=
  int64_wrap (int64_wrap (Z.quot (int64_wrap (int64_wrap (x + y) - 1)) y) * y).

(** [enum class Origin] *)
Module Origin.
Inductive t := Host | ScaLAPACK | Devices.
End Origin.

(** [slate::Target], with the enumerators [target2str] switches over. *)
Module Target.
Inductive t := HostTask | HostNest | HostBatch | Devices | Host.
End Target.

(** [slate::NormScope], with the enumerators [scope2str] switches over. *)
Module NormScope.
Inductive t := Matrix | Columns | Rows.
End NormScope.

(** A value returned, or a [slate::Exception] thrown with its message. *)
Inductive result (X : Type) :=
| Ok (x : X)
| Throw (msg : string).

Arguments Ok {X} x.
Arguments Throw {X} msg.

(** [::tolower] in the C locale. *)
Definition tolower (c : ascii) : ascii :=
  let n := nat_of_ascii c in
  if (Nat.leb 65 n && Nat.leb n 90)%bool then ascii_of_nat (n + 32) else c.

(** [std::transform(s.begin(), s.end(), s.begin(), ::tolower)] *)
Fixpoint lower (s : string) : string :=
  match s with
  | EmptyString => EmptyString
  | String c s' => String (tolower c) (lower s')
  end.

Definition str2origin (origin : string) : result Origin.t :=
  let origin_ := lower origin in
  if ((origin_ =? "d") || (origin_ =? "dev") || (origin_ =? "device")
      || (origin_ =? "devices"))%string%bool
  then Ok Origin.Devices
  else if ((origin_ =? "h") || (origin_ =? "host"))%string%bool
  then Ok Origin.Host
  else if ((origin_ =? "s") || (origin_ =? "scalapack"))%string%bool
  then Ok Origin.ScaLAPACK
  else Throw "unknown origin"%string.

Definition origin2str (origin : Origin.t) : string :=
  match origin with
  | Origin.Devices => "devices"
  | Origin.Host => "host"
  | Origin.ScaLAPACK => "scalapack"
  end%string.

Definition origin2target (origin : Origin.t) : result Target.t :=
  match origin with
  | Origin.Host | Origin.ScaLAPACK => Ok Target.Host
  | Origin.Devices => Ok Target.Devices
  end.

Definition str2target (target : string) : result Target.t :=
  let target_ := lower target in
  if ((target_ =? "t") || (target_ =? "task"))%string%bool
  then Ok Target.HostTask
  else if ((target_ =? "n") || (target_ =? "nest"))%string%bool
  then Ok Target.HostNest
  else if ((target_ =? "b") || (target_ =? "batch"))%string%bool
  then Ok Target.HostBatch
  else if ((target_ =? "d") || (target_ =? "dev") || (target_ =? "device")
           || (target_ =? "devices"))%string%bool
  then Ok Target.Devices
  else if ((target_ =? "h") || (target_ =? "host"))%string%bool
  then Ok Target.Host
  else Throw "unknown target"%string.

Definition target2str (target : Target.t) : string :=
  match target with
  | Target.HostTask => "task"
  | Target.HostNest => "nest"
  | Target.HostBatch => "batch"
  | Target.Devices => "devices"
  | Target.Host => "host"
  end%string.

Definition str2scope (scope : string) : result NormScope.t :=
  let scope_ := lower scope in
  if ((scope_ =? "m") || (scope_ =? "matrix"))%string%bool
  then Ok NormScope.Matrix
  else if ((scope_ =? "c") || (scope_ =? "cols")
           || (scope_ =? "columns"))%string%bool
  then Ok NormScope.Columns
  else if ((scope_ =? "r") || (scope_ =? "rows"))%string%bool
  then Ok NormScope.Rows
  else Throw "unknown scope"%string.

Definition scope2str (scope : NormScope.t) : string :=
  match scope with
  | NormScope.Matrix => "matrix"
  | NormScope.Columns => "columns"
  | NormScope.Rows => "rows"
  end%string.

End TestHh.

(* ====================================================================== *)
(** * Lists and ranges *)

Module ListFacts.

Lemma in_Zrange n x : In x (Zrange n) <-> 0 <= x < n.
Proof.
  unfold Zrange. rewrite in_map_iff. split.
  - intros (t & <- & Ht). apply in_seq in Ht. lia.
  - intros Hx. exists (Z.to_nat x). split; [lia|]. apply in_seq. lia.
Qed.

Lemma NoDup_map_inj_in {X Y : Type} (f : X -> Y) l :
  (forall x y, In x l -> In y l -> f x = f y -> x = y) ->
  NoDup l -> NoDup (map f l).
Proof.
  intros Hinj Hl. induction Hl as [|x l Hx Hl IH]; cbn; constructor.
  - rewrite in_map_iff. intros (y & Heq & Hy).
    assert (y = x) by (apply Hinj; [right; exact Hy | left; reflexivity | exact Heq]).
    subst y. contradiction.
  - apply IH. intros a b Ha Hb. apply Hinj; right; assumption.
Qed.

Lemma NoDup_Zrange n : NoDup (Zrange n).
Proof.
  unfold Zrange. apply NoDup_map_inj_in; [|apply seq_NoDup].
  intros x y _ _ H. lia.
Qed.

Lemma fold_flat_map {X Y St : Type} (f : St -> Y -> St) (g : X -> list Y) l st :
  fold_left f (flat_map g l) st =
  fold_left (fun s x => fold_left f (g x) s) l st.
Proof.
  revert st. induction l as [|x l IH]; intros st; [reflexivity|].
  cbn. rewrite fold_left_app. apply IH.
Qed.

Lemma fold_left_ext_in {X St : Type} (f g : St -> X -> St) l st :
  (forall s x, f s x = g s x) -> fold_left f l st = fold_left g l st.
Proof.
  intros H. revert st. induction l as [|x l IH]; intros st; [reflexivity|].
  cbn. rewrite H. apply IH.
Qed.

Lemma NoDup_flat_map {X Y : Type} (g : X -> list Y) l :
  NoDup l -> (forall x, In x l -> NoDup (g x)) ->
  (forall x x' y, In x l -> In x' l -> In y (g x) -> In y (g x') -> x = x') ->
  NoDup (flat_map g l).
Proof.
  induction l as [|x l IH]; intros Hl Hg Hdisj; cbn; [constructor|].
  inversion Hl; subst.
  apply NoDup_app.
  - apply Hg. left. reflexivity.
  - apply IH; auto.
    + intros; apply Hg; right; assumption.
    + intros x1 x2 y Hx1 Hx2. apply Hdisj; right; assumption.
  - intros y Hy Hy'. apply in_flat_map in Hy'. destruct Hy' as (x' & Hx' & Hy').
    assert (x = x') by (apply (Hdisj x x' y); auto; [left; reflexivity | right; exact Hx']).
    subst x'. contradiction.
Qed.

Lemma Zrange_interval n : Zrange n = Zinterval 0 n.
Proof.
  unfold Zrange, Zinterval. rewrite Z.sub_0_r. apply map_ext. intros t. lia.
Qed.

Lemma in_Zinterval lo hi x : In x (Zinterval lo hi) <-> lo <= x < hi.
Proof.
  unfold Zinterval. rewrite in_map_iff. split.
  - intros (t & <- & Ht). apply in_seq in Ht. lia.
  - intros Hx. exists (Z.to_nat (x - lo)). split; [lia|]. apply in_seq. lia.
Qed.

Lemma Zinterval_nil lo hi : hi <= lo -> Zinterval lo hi = [].
Proof.
  intros H. unfold Zinterval. replace (Z.to_nat (hi - lo)) with O by lia.
  reflexivity.
Qed.

Lemma Zinterval_cons lo hi :
  lo < hi -> Zinterval lo hi = lo :: Zinterval (lo + 1) hi.
Proof.
  intros H. unfold Zinterval.
  replace (Z.to_nat (hi - lo)) with (S (Z.to_nat (hi - (lo + 1)))) by lia.
  cbn [seq map]. rewrite <- seq_shift, map_map. f_equal; [lia|].
  apply map_ext. intros t. lia.
Qed.

Lemma filter_none {X : Type} (f : X -> bool) l :
  (forall x, In x l -> f x = false) -> filter f l = [].
Proof.
  induction l as [|x l IH]; intros H; cbn; [reflexivity|].
  rewrite (H x) by (left; reflexivity). apply IH.
  intros y Hy. apply H. right. exact Hy.
Qed.

(** Dropping from the front of an interval elements the filter rejects. *)
Lemma filter_interval_skip (f : Z -> bool) lo mid hi :
  lo <= mid -> (forall x, lo <= x < mid -> f x = false) ->
  filter f (Zinterval lo hi) = filter f (Zinterval mid hi).
Proof.
  intros Hle. remember (Z.to_nat (mid - lo)) as d eqn:Hd.
  revert lo Hle Hd. induction d as [|d IH]; intros lo Hle Hd Hf.
  - replace mid with lo by lia. reflexivity.
  - destruct (Z_lt_le_dec lo hi) as [Hlt | Hge].
    + rewrite (Zinterval_cons lo hi Hlt). cbn [filter].
      rewrite (Hf lo) by lia. apply IH; [lia | lia |].
      intros x Hx. apply Hf. lia.
    + rewrite (Zinterval_nil lo hi), (Zinterval_nil mid hi) by lia.
      reflexivity.
Qed.

Lemma flat_map_filter {X Y : Type} (p : X -> bool) (g : X -> list Y) l :
  flat_map (fun x => if p x then g x else []) l = flat_map g (filter p l).
Proof.
  induction l as [|x l IH]; cbn; [reflexivity|].
  destruct (p x); cbn; rewrite IH; reflexivity.
Qed.

Lemma rev_map_seq {X : Type} (f : nat -> X) n :
  rev (map f (seq 0 n)) = map (fun t => f (n - 1 - t)%nat) (seq 0 n).
Proof.
  induction n as [|n IH]; [reflexivity|].
  rewrite seq_S at 1. rewrite map_app, rev_app_distr. cbn [rev map app plus].
  rewrite IH. cbn [seq map]. rewrite <- seq_shift, map_map.
  f_equal; [f_equal; lia|]. apply map_ext. intros t. f_equal. lia.
Qed.

End ListFacts.

(* ====================================================================== *)
(** * Properties of BandMatrix *)

Module BandMatrixFacts.
Import BandMatrix.

Lemma set_lower_keeps_op k A : op (set_lowerBandwidth k A) = op A.
Proof.
  unfold set_lowerBandwidth. destruct (Op_eqb (op A) NoTrans); reflexivity.
Qed.

Lemma set_upper_keeps_op k A : op (set_upperBandwidth k A) = op A.
Proof.
  unfold set_upperBandwidth. destruct (Op_eqb (op A) NoTrans); reflexivity.
Qed.

(** C9.  The getters select [kl_] or [ku_] by the transposition, the
    setters write the field the matching getter reads, and therefore a set
    followed by the matching get returns the value set, whatever the
    transposition is. *)
Theorem bandwidth_accessors (A : t) (k : Z) :
  lowerBandwidth A = (match op A with NoTrans => kl_ A | _ => ku_ A end) /\
  upperBandwidth A = (match op A with NoTrans => ku_ A | _ => kl_ A end) /\
  set_lowerBandwidth k A =
    (match op A with
     | NoTrans => mk (op A) k (ku_ A)
     | _ => mk (op A) (kl_ A) k
     end) /\
  set_upperBandwidth k A =
    (match op A with
     | NoTrans => mk (op A) (kl_ A) k
     | _ => mk (op A) k (ku_ A)
     end) /\
  lowerBandwidth (set_lowerBandwidth k A) = k /\
  upperBandwidth (set_upperBandwidth k A) = k.
Proof.
  destruct A as [o l u].
  unfold lowerBandwidth, upperBandwidth, set_lowerBandwidth, set_upperBandwidth.
  destruct o; cbn; repeat split; reflexivity.
Qed.

End BandMatrixFacts.

(* ====================================================================== *)
(** * Properties of device::geset *)

Module DeviceFacts.
Import Device ListFacts.

Section GesetFacts.

Context {scalar_t : Type}.
Implicit Types M : Mem scalar_t.
Implicit Types off diag v : scalar_t.

Lemma for_up_fold {St : Type} (body : Z -> St -> St) cnt i st :
  for_up cnt i body st =
  fold_left (fun s x => body x s) (map (fun t => i + Z.of_nat t) (seq 0 cnt)) st.
Proof.
  revert i st. induction cnt as [|c IH]; intros i st; [reflexivity|].
  cbn [for_up seq map fold_left]. rewrite IH, <- seq_shift, map_map.
  replace (i + Z.of_nat 0) with i by lia.
  f_equal. apply map_ext. intros t. lia.
Qed.

Lemma for_range_fold {St : Type} (body : Z -> St -> St) n st :
  for_range n body st = fold_left (fun s x => body x s) (Zrange n) st.
Proof.
  unfold for_range, Zrange. rewrite for_up_fold. f_equal.
Qed.

Lemma loops_as_stores m n off diag A lda M :
  for_range m (fun i => for_range n (fun j => geset_elem off diag A lda i j)) M
  = fold_left do_store (geset_stores m n off diag A lda) M.
Proof.
  unfold geset_stores. rewrite for_range_fold, fold_flat_map.
  apply fold_left_ext_in. intros s i.
  rewrite for_range_fold. unfold do_store, geset_elem.
  generalize (Zrange n). intros l. revert s.
  induction l as [|j l IH]; intros s; [reflexivity|]. cbn. apply IH.
Qed.

Lemma geset_as_stores m n off diag A lda M :
  geset m n off diag A lda M
  = fold_left do_store (geset_stores m n off diag A lda) M.
Proof.
  unfold geset. destruct ((m =? 0) || (n =? 0)) eqn:Hq.
  - apply orb_true_iff in Hq. unfold geset_stores.
    destruct Hq as [Hm | Hn].
    + apply Z.eqb_eq in Hm. subst m. reflexivity.
    + apply Z.eqb_eq in Hn. subst n. cbn.
      induction (Zrange m); [reflexivity | assumption].
  - apply loops_as_stores.
Qed.

Lemma stored_fold ws M :
  stored (fold_left do_store ws M) = rev (map fst ws) ++ stored M.
Proof.
  revert M. induction ws as [|w ws IH]; intros M; [reflexivity|].
  cbn [fold_left map rev]. rewrite IH, <- app_assoc. reflexivity.
Qed.

Lemma load_not_stored ws M a :
  ~ In a (map fst ws) -> load (fold_left do_store ws M) a = load M a.
Proof.
  revert M. induction ws as [|w ws IH]; intros M Hn; [reflexivity|].
  cbn [fold_left]. rewrite IH by (intros H; apply Hn; right; exact H).
  cbn. destruct (Z.eqb_spec a (fst w)) as [->|]; [|reflexivity].
  exfalso. apply Hn. left. reflexivity.
Qed.

Lemma load_stored ws M a v :
  In (a, v) ws -> (forall v', In (a, v') ws -> v' = v) ->
  load (fold_left do_store ws M) a = v.
Proof.
  revert M. induction ws as [|w ws IH]; intros M Hin Huniq; [destruct Hin|].
  cbn [fold_left].
  destruct (in_dec Z.eq_dec a (map fst ws)) as [Hlater | Hlater].
  - apply in_map_iff in Hlater. destruct Hlater as ([a' v'] & Ha & Hw).
    cbn in Ha. subst a'.
    assert (v' = v) by (apply Huniq; right; exact Hw). subst v'.
    apply IH; [exact Hw|]. intros v'' H. apply Huniq. right. exact H.
  - rewrite load_not_stored by exact Hlater.
    destruct Hin as [-> | Hin].
    + cbn. rewrite Z.eqb_refl. reflexivity.
    + exfalso. apply Hlater. apply in_map_iff. exists (a, v). auto.
Qed.

Lemma in_geset_stores m n off diag A lda a v :
  In (a, v) (geset_stores m n off diag A lda) <->
  exists i j, 0 <= i < m /\ 0 <= j < n /\ a = A + i + j * lda /\
              v = if negb (j =? i) then off else diag.
Proof.
  unfold geset_stores. rewrite in_flat_map. split.
  - intros (i & Hi & Hin). apply in_map_iff in Hin.
    destruct Hin as (j & Heq & Hj). inversion Heq; subst.
    exists i, j. rewrite <- !in_Zrange. auto.
  - intros (i & j & Hi & Hj & -> & ->). exists i. split.
    + apply in_Zrange; exact Hi.
    + apply in_map_iff. exists j. split; [reflexivity|]. apply in_Zrange; exact Hj.
Qed.

(** Within a leading dimension of at least [m], an offset determines the
    row and the column it belongs to. *)
Lemma offset_injective m lda i j i' j' :
  m <= lda -> 0 <= i < m -> 0 <= i' < m ->
  i + j * lda = i' + j' * lda -> i = i' /\ j = j'.
Proof.
  intros Hm Hi Hi' Heq.
  assert (j = j') by nia. subst j'. split; lia.
Qed.

(** No two iterations store to the same address: the iterations of the
    offloaded loops can run in any order. *)
Lemma geset_addresses_NoDup m n off diag A lda :
  0 <= m <= lda ->
  NoDup (map fst (geset_stores m n off diag A lda)).
Proof.
  intros Hm. unfold geset_stores. rewrite flat_map_concat_map, concat_map, map_map.
  rewrite <- flat_map_concat_map.
  apply NoDup_flat_map.
  - apply NoDup_Zrange.
  - intros i Hi. rewrite map_map. cbn.
    apply NoDup_map_inj_in; [|apply NoDup_Zrange].
    intros j j' Hj Hj' Heq. apply in_Zrange in Hi.
    assert (lda > 0) by lia. nia.
  - intros i i' a Hi Hi' Ha Ha'. rewrite map_map in Ha, Ha'. cbn in Ha, Ha'.
    apply in_map_iff in Ha, Ha'.
    destruct Ha as (j & <- & _), Ha' as (j' & Heq & _).
    apply in_Zrange in Hi, Hi'.
    destruct (offset_injective m lda i' j' i j); lia.
Qed.

End GesetFacts.

(** C10.  With [0 <= m <= lda], [geset] leaves [diag_value] on the diagonal
    and [offdiag_value] off the diagonal of the m-by-n matrix at [A], leaves
    every other cell as it was, and stores nothing at all when [m] or [n] is
    zero, nor does the batched variant when [batch_count], [m] or [n] is
    zero. *)
Theorem geset_postcondition (scalar_t : Type) (m n : Z)
        (offdiag_value diag_value : scalar_t) (A lda : Z) (M : Mem scalar_t) :
  0 <= m <= lda ->
  (forall i j, 0 <= i < m -> 0 <= j < n ->
     load (geset m n offdiag_value diag_value A lda M) (A + i + j * lda)
     = if i =? j then diag_value else offdiag_value) /\
  (forall a, (forall i j, 0 <= i < m -> 0 <= j < n -> a <> A + i + j * lda) ->
     load (geset m n offdiag_value diag_value A lda M) a = load M a) /\
  (m = 0 \/ n = 0 ->
     geset m n offdiag_value diag_value A lda M = M) /\
  (forall Aarray batch_count, batch_count = 0 \/ m = 0 \/ n = 0 ->
     batch_geset m n offdiag_value diag_value Aarray lda batch_count M = M).
Proof.
  intros Hm. repeat split.
  - intros i j Hi Hj. rewrite geset_as_stores.
    apply load_stored.
    + apply in_geset_stores. exists i, j. repeat split; try lia.
      rewrite (Z.eqb_sym j i). destruct (i =? j); reflexivity.
    + intros v' Hv'. apply in_geset_stores in Hv'.
      destruct Hv' as (i' & j' & Hi' & Hj' & Heq & ->).
      destruct (offset_injective m lda i j i' j') as [<- <-]; try lia.
      rewrite (Z.eqb_sym j i). destruct (i =? j); reflexivity.
  - intros a Ha. rewrite geset_as_stores. apply load_not_stored.
    intros Hin. apply in_map_iff in Hin. destruct Hin as ([a' v] & Heq & Hin).
    cbn in Heq. subst a'. apply in_geset_stores in Hin.
    destruct Hin as (i & j & Hi & Hj & Heq & _). exact (Ha i j Hi Hj Heq).
  - intros [-> | ->]; unfold geset; [reflexivity|].
    rewrite orb_true_r. reflexivity.
  - intros Aarray batch_count [-> | [-> | ->]]; unfold batch_geset.
    + reflexivity.
    + destruct (batch_count =? 0); reflexivity.
    + rewrite orb_true_r. destruct (batch_count =? 0); reflexivity.
Qed.

Lemma geset_postcondition_witness :
  load (geset 2 2 0 1 10 3 (mkMem (fun _ => 7) [])) (10 + 1 + 1 * 3) = 1 /\
  load (geset 2 2 0 1 10 3 (mkMem (fun _ => 7) [])) (10 + 0 + 1 * 3) = 0 /\
  load (geset 2 2 0 1 10 3 (mkMem (fun _ => 7) [])) 12 = 7.
Proof.
  destruct (geset_postcondition Z 2 2 0 1 10 3 (mkMem (fun _ => 7) []))
    as (Hset & Hkeep & _); [lia|].
  split; [|split].
  - apply (Hset 1 1); lia.
  - apply (Hset 0 1); lia.
  - rewrite Hkeep; [reflexivity|]. intros i j Hi Hj. lia.
Defined.

End DeviceFacts.

(* ====================================================================== *)
(** * Properties of the participant list of ttmlq *)

Module RankFacts.
Import Ttmlq ListFacts.

(** ** The rank set *)

Lemma in_set_insert r s x : In x (set_insert r s) <-> x = r \/ In x s.
Proof.
  induction s as [|y s IH]; cbn.
  - intuition.
  - destruct (Z.ltb_spec r y); [cbn; intuition|].
    destruct (Z.eqb_spec r y); cbn; [subst; intuition|].
    rewrite IH. intuition.
Qed.

Lemma set_insert_sorted r s :
  StronglySorted Z.lt s -> StronglySorted Z.lt (set_insert r s).
Proof.
  induction 1 as [|y s Hs IH Hy]; cbn.
  - repeat constructor.
  - destruct (Z.ltb_spec r y).
    + constructor; [constructor; assumption|].
      constructor; [assumption|].
      eapply Forall_impl; [|exact Hy]. cbn. intros; lia.
    + destruct (Z.eqb_spec r y); [constructor; assumption|].
      constructor; [exact IH|].
      apply Forall_forall. intros x Hx. apply in_set_insert in Hx.
      destruct Hx as [-> | Hx]; [lia|].
      rewrite Forall_forall in Hy. auto.
Qed.

Lemma fold_insert_sorted {X : Type} (f : X -> Z) l s :
  StronglySorted Z.lt s ->
  StronglySorted Z.lt (fold_left (fun s x => set_insert (f x) s) l s).
Proof.
  revert s. induction l as [|x l IH]; intros s Hs; cbn; [exact Hs|].
  apply IH, set_insert_sorted, Hs.
Qed.

Lemma in_fold_insert {X : Type} (f : X -> Z) l s r :
  In r (fold_left (fun s x => set_insert (f x) s) l s) <->
  In r s \/ exists x, In x l /\ f x = r.
Proof.
  revert s. induction l as [|x l IH]; intros s; cbn.
  - split; [auto | intros [H | (x & [] & _)]; exact H].
  - rewrite IH, in_set_insert. split.
    + intros [[-> | H] | (y & Hy & Hr)]; eauto.
    + intros [H | (y & [<- | Hy] & Hr)]; eauto.
Qed.

Lemma getRanks_row A :
  mt A = 1 ->
  getRanks A = fold_left (fun s j => set_insert (tileRank A 0 j) s)
                         (Zrange (nt A)) [].
Proof. unfold getRanks. intros ->. reflexivity. Qed.

Lemma in_getRanks A r :
  mt A = 1 ->
  (In r (getRanks A) <-> exists j, 0 <= j < nt A /\ tileRank A 0 j = r).
Proof.
  intros Hmt. rewrite (getRanks_row A Hmt), in_fold_insert. split.
  - intros [[] | (j & Hj & Hr)]. exists j. rewrite <- in_Zrange. auto.
  - intros (j & Hj & Hr). right. exists j. rewrite in_Zrange. auto.
Qed.

Lemma StronglySorted_lt_NoDup l : StronglySorted Z.lt l -> NoDup l.
Proof.
  induction 1 as [|x l Hl IH Hx]; constructor; [|exact IH].
  intros Hin. rewrite Forall_forall in Hx. specialize (Hx x Hin). lia.
Qed.

Lemma getRanks_NoDup A : mt A = 1 -> NoDup (getRanks A).
Proof.
  intros Hmt. rewrite (getRanks_row A Hmt).
  apply StronglySorted_lt_NoDup, fold_insert_sorted. constructor.
Qed.

(** ** The first column of a rank *)

Lemma first_col_Some A r cnt j j0 :
  first_col A r cnt j = Some j0 -> is_first_col A r j (j + Z.of_nat cnt) j0.
Proof.
  revert j. induction cnt as [|c IH]; intros j; cbn [first_col]; [discriminate|].
  destruct (Z.eqb_spec (tileRank A 0 j) r) as [Heq | Hne].
  - intros [= <-]. repeat split; try lia; try assumption.
  - intros H. apply IH in H. destruct H as (Hr & Ho & Hmin).
    split; [lia|]. split; [exact Ho|].
    intros j' Hj'. destruct (Z.eq_dec j' j) as [-> | Hd]; [exact Hne|].
    apply Hmin. lia.
Qed.

Lemma first_col_None A r cnt j :
  first_col A r cnt j = None ->
  forall j', j <= j' < j + Z.of_nat cnt -> tileRank A 0 j' <> r.
Proof.
  revert j. induction cnt as [|c IH]; intros j; cbn [first_col]; [intros; lia|].
  destruct (Z.eqb_spec (tileRank A 0 j) r) as [Heq | Hne]; [discriminate|].
  intros H j' Hj'. destruct (Z.eq_dec j' j) as [-> | Hd]; [exact Hne|].
  apply (IH _ H). lia.
Qed.

Lemma first_col_iff A r cnt j j0 :
  first_col A r cnt j = Some j0 <-> is_first_col A r j (j + Z.of_nat cnt) j0.
Proof.
  split; [apply first_col_Some|].
  intros (Hr & Ho & Hmin).
  destruct (first_col A r cnt j) as [j1|] eqn:E.
  - apply first_col_Some in E. destruct E as (Hr1 & Ho1 & Hmin1).
    f_equal. destruct (Z.lt_trichotomy j1 j0) as [Hlt | [Heq | Hgt]].
    + exfalso. apply (Hmin j1); [lia | exact Ho1].
    + exact Heq.
    + exfalso. apply (Hmin1 j0); [lia | exact Ho].
  - exfalso. exact (first_col_None _ _ _ _ E j0 Hr Ho).
Qed.

(** ** The list before sorting *)

Lemma in_unsorted A r j :
  mt A = 1 ->
  (In (r, j) (rank_indices_unsorted A) <-> is_first_col A r 0 (nt A) j).
Proof.
  intros Hmt. unfold rank_indices_unsorted. rewrite in_flat_map. split.
  - intros (r' & Hr' & Hin).
    destruct (first_col A r' (Z.to_nat (nt A)) 0) as [j'|] eqn:E; [|destruct Hin].
    destruct Hin as [[= <- <-] | []].
    apply first_col_Some in E. destruct E as (Hr & Ho & Hmin).
    repeat split; try lia; assumption.
  - intros (Hr & Ho & Hmin). exists r. split.
    + apply in_getRanks; [exact Hmt|]. exists j. auto.
    + assert (E : first_col A r (Z.to_nat (nt A)) 0 = Some j).
      { apply first_col_iff. repeat split; try lia; assumption. }
      rewrite E. left. reflexivity.
Qed.

Lemma map_fst_unsorted A :
  exists sub, map fst (rank_indices_unsorted A) = sub /\
              forall l, NoDup (getRanks A) -> l = getRanks A -> NoDup sub.
Proof.
  eexists. split; [reflexivity|]. intros _ Hnd _.
  unfold rank_indices_unsorted.
  induction Hnd as [|r l Hr Hl IH]; cbn; [constructor|].
  rewrite map_app.
  destruct (first_col A r (Z.to_nat (nt A)) 0) as [j|]; cbn; [|exact IH].
  constructor; [|exact IH].
  intros Hin. apply Hr. apply in_map_iff in Hin.
  destruct Hin as ([r' j'] & Hfst & Hin). cbn in Hfst. subst r'.
  apply in_flat_map in Hin. destruct Hin as (r' & Hr' & Hin).
  destruct (first_col A r' (Z.to_nat (nt A)) 0); [|destruct Hin].
  destruct Hin as [[= <- _] | []]. exact Hr'.
Qed.

Lemma unsorted_fst_NoDup A :
  mt A = 1 -> NoDup (map fst (rank_indices_unsorted A)).
Proof.
  intros Hmt. destruct (map_fst_unsorted A) as (sub & <- & H).
  apply (H (getRanks A)); [apply getRanks_NoDup; exact Hmt | reflexivity].
Qed.

Lemma unsorted_snd_NoDup A :
  mt A = 1 -> NoDup (map snd (rank_indices_unsorted A)).
Proof.
  intros Hmt.
  assert (Hfst := unsorted_fst_NoDup A Hmt).
  assert (Hin : forall r j, In (r, j) (rank_indices_unsorted A) ->
                            tileRank A 0 j = r).
  { intros r j H. apply in_unsorted in H; [|exact Hmt]. apply H. }
  induction (rank_indices_unsorted A) as [|[r j] l IH]; cbn; [constructor|].
  cbn in Hfst. inversion Hfst as [|? ? Hr Hl]; subst.
  constructor.
  - intros Hj. apply in_map_iff in Hj. destruct Hj as ([r' j'] & Heq & Hj).
    cbn in Heq. subst j'. apply Hr. apply in_map_iff. exists (r', j).
    split; [|exact Hj]. cbn.
    rewrite <- (Hin r j), <- (Hin r' j); [reflexivity | right; exact Hj | left; reflexivity].
  - apply IH; [exact Hl|]. intros r' j' H. apply Hin. right. exact H.
Qed.

(** ** Sorting *)

Lemma sort_insert_perm x l : Permutation (x :: l) (sort_insert x l).
Proof.
  induction l as [|y l IH]; cbn; [reflexivity|].
  destruct (compareSecond x y); [reflexivity|].
  rewrite perm_swap. constructor. exact IH.
Qed.

Lemma sort_by_second_perm l : Permutation l (sort_by_second l).
Proof.
  induction l as [|x l IH]; cbn; [constructor|].
  rewrite <- sort_insert_perm. constructor. exact IH.
Qed.

Lemma sort_insert_sorted x l :
  StronglySorted le_second l -> StronglySorted le_second (sort_insert x l).
Proof.
  induction 1 as [|y l Hl IH Hy]; cbn.
  - repeat constructor.
  - unfold compareSecond. destruct (Z.ltb_spec (snd x) (snd y)).
    + constructor; [constructor; assumption|].
      constructor; [unfold le_second; lia|].
      eapply Forall_impl; [|exact Hy]. unfold le_second. intros; lia.
    + constructor; [exact IH|].
      apply Forall_forall. intros z Hz.
      apply (Permutation_in _ (Permutation_sym (sort_insert_perm x l))) in Hz.
      destruct Hz as [<- | Hz]; [unfold le_second; lia|].
      rewrite Forall_forall in Hy. auto.
Qed.

Lemma sort_by_second_sorted l : StronglySorted le_second (sort_by_second l).
Proof.
  induction l as [|x l IH]; cbn; [constructor|].
  apply sort_insert_sorted, IH.
Qed.

Lemma sorted_strict l :
  StronglySorted le_second l -> NoDup (map snd l) ->
  StronglySorted lt_second l.
Proof.
  induction 1 as [|x l Hl IH Hx]; cbn; intros Hnd; [constructor|].
  inversion Hnd as [|? ? Hnin Hnd']; subst.
  constructor; [apply IH; exact Hnd'|].
  apply Forall_forall. intros y Hy. rewrite Forall_forall in Hx.
  specialize (Hx y Hy). unfold le_second in Hx. unfold lt_second.
  assert (snd x <> snd y).
  { intros Heq. apply Hnin. rewrite Heq. apply in_map. exact Hy. }
  lia.
Qed.

Lemma rank_indices_strictly_sorted A :
  mt A = 1 -> StronglySorted lt_second (rank_indices A).
Proof.
  intros Hmt. unfold rank_indices.
  apply sorted_strict; [apply sort_by_second_sorted|].
  eapply Permutation_NoDup; [|apply unsorted_snd_NoDup; exact Hmt].
  apply Permutation_map, sort_by_second_perm.
Qed.

(** A strictly sorted sequence is determined by its elements: any sorting
    algorithm returns the list [rank_indices]. *)
Lemma strictly_sorted_unique l l' :
  StronglySorted lt_second l -> StronglySorted lt_second l' ->
  (forall x, In x l <-> In x l') -> l = l'.
Proof.
  intros Hl. revert l'. induction Hl as [|x l Hl IH Hx]; intros l' Hl' Hiff.
  - destruct l' as [|y l']; [reflexivity|].
    exfalso. apply (Hiff y). left. reflexivity.
  - destruct Hl' as [|y l' Hl' Hy].
    + exfalso. apply (Hiff x). left. reflexivity.
    + rewrite Forall_forall in Hx, Hy.
      assert (x = y).
      { destruct (proj1 (Hiff x) (or_introl eq_refl)) as [Heq | Hin]; [auto|].
        destruct (proj2 (Hiff y) (or_introl eq_refl)) as [Heq | Hin']; [auto|].
        specialize (Hx _ Hin'). specialize (Hy _ Hin).
        unfold lt_second in *. lia. }
      subst y. f_equal. apply IH; [exact Hl'|].
      intros z. split; intros Hz.
      * destruct (proj1 (Hiff z) (or_intror Hz)) as [<- | H]; [|exact H].
        specialize (Hx _ Hz). unfold lt_second in Hx. lia.
      * destruct (proj2 (Hiff z) (or_intror Hz)) as [<- | H]; [|exact H].
        specialize (Hy _ Hz). unfold lt_second in Hy. lia.
Qed.

Lemma sort_result_unique A l :
  mt A = 1 ->
  Permutation (rank_indices_unsorted A) l -> StronglySorted le_second l ->
  l = rank_indices A.
Proof.
  intros Hmt Hperm Hsorted.
  apply strictly_sorted_unique.
  - apply sorted_strict; [exact Hsorted|].
    eapply Permutation_NoDup; [|apply unsorted_snd_NoDup; exact Hmt].
    apply Permutation_map, Hperm.
  - apply rank_indices_strictly_sorted, Hmt.
  - intros x. unfold rank_indices. split; intros Hx.
    + eapply Permutation_in; [apply sort_by_second_perm|].
      eapply Permutation_in; [apply Permutation_sym, Hperm | exact Hx].
    + eapply Permutation_in; [exact Hperm|].
      eapply Permutation_in; [apply Permutation_sym, sort_by_second_perm|].
      exact Hx.
Qed.

(** The list is a function of the tile counts and of the distribution
    function; the rank of the calling process plays no part. *)
Lemma first_col_ext A B r cnt j :
  (forall i j, tileRank B i j = tileRank A i j) ->
  first_col B r cnt j = first_col A r cnt j.
Proof.
  intros Hd. revert j. induction cnt as [|c IH]; intros j; cbn; [reflexivity|].
  rewrite Hd, IH. reflexivity.
Qed.

Lemma getRanks_ext A B :
  mt B = mt A -> nt B = nt A ->
  (forall i j, tileRank B i j = tileRank A i j) ->
  getRanks B = getRanks A.
Proof.
  intros Hm Hn Hd. unfold getRanks. rewrite Hm, Hn.
  apply fold_left_ext_in. intros s i.
  apply fold_left_ext_in. intros s' j. rewrite Hd. reflexivity.
Qed.

Lemma rank_indices_ext A B :
  mt B = mt A -> nt B = nt A ->
  (forall i j, tileRank B i j = tileRank A i j) ->
  rank_indices B = rank_indices A.
Proof.
  intros Hm Hn Hd. unfold rank_indices, rank_indices_unsorted.
  rewrite (getRanks_ext A B Hm Hn Hd), Hn. f_equal.
  apply flat_map_ext. intros r. rewrite (first_col_ext A B) by exact Hd.
  reflexivity.
Qed.

(** C5.  For a panel [A] of one row of tiles, [rank_indices] holds the pair
    [(r, j)] exactly when [j] is the first column whose tile rank [r] owns;
    the ranks in it are the ranks owning a tile of the row, each once; it is
    strictly ascending in [j]; and it is the same on whichever rank it is
    computed, being a function of the tile counts and the distribution
    alone (no event of communication is part of its computation). *)
Theorem rank_indices_characterised (A : Matrix) :
  mt A = 1 ->
  (forall r j, In (r, j) (rank_indices A) <->
     0 <= j < nt A /\ tileRank A 0 j = r /\
     forall j', 0 <= j' < j -> tileRank A 0 j' <> r) /\
  (forall r, In r (map fst (rank_indices A)) <->
     exists j, 0 <= j < nt A /\ tileRank A 0 j = r) /\
  NoDup (map fst (rank_indices A)) /\
  StronglySorted (fun a b => snd a < snd b) (rank_indices A) /\
  (forall B, mt B = mt A -> nt B = nt A ->
             (forall i j, tileRank B i j = tileRank A i j) ->
             rank_indices B = rank_indices A).
Proof.
  intros Hmt.
  assert (Hperm : Permutation (rank_indices_unsorted A) (rank_indices A))
    by apply sort_by_second_perm.
  assert (Hin : forall r j, In (r, j) (rank_indices A) <->
                            is_first_col A r 0 (nt A) j).
  { intros r j. rewrite <- (in_unsorted A r j Hmt). split.
    - apply Permutation_in, Permutation_sym, Hperm.
    - apply Permutation_in, Hperm. }
  split; [exact Hin|]. split; [|split; [|split]].
  - intros r. rewrite in_map_iff. split.
    + intros ([r' j] & Hfst & H). cbn in Hfst. subst r'.
      apply Hin in H. destruct H as (Hj & Ho & _). exists j. auto.
    + intros Hex.
      assert (Hr : In r (getRanks A)) by (apply in_getRanks; assumption).
      destruct (first_col A r (Z.to_nat (nt A)) 0) as [j|] eqn:E.
      * exists (r, j). split; [reflexivity|]. apply Hin.
        apply first_col_Some in E. destruct E as (Hj & Ho & Hmin).
        repeat split; try lia; assumption.
      * exfalso. destruct Hex as (j & Hj & Ho).
        apply (first_col_None _ _ _ _ E j); [lia | exact Ho].
  - eapply Permutation_NoDup; [|apply unsorted_fst_NoDup; exact Hmt].
    apply Permutation_map, Hperm.
  - apply rank_indices_strictly_sorted, Hmt.
  - intros B Hm Hn Hd. apply rank_indices_ext; assumption.
Qed.

Lemma rank_indices_characterised_witness :
  NoDup (map fst (rank_indices (mkMatrix 1 6 (fun _ j => Z.modulo (5 - j) 3) 0)))
  /\ rank_indices (mkMatrix 1 6 (fun _ j => Z.modulo (5 - j) 3) 0)
     = [(2, 0); (1, 1); (0, 2)].
Proof.
  split.
  - apply (rank_indices_characterised
             (mkMatrix 1 6 (fun _ j => Z.modulo (5 - j) 3) 0)).
    reflexivity.
  - reflexivity.
Defined.

End RankFacts.

(* ====================================================================== *)
(** * Properties of the reduction tree of ttmlq *)

Module TreeFacts.
Import Ttmlq TreeSpec ListFacts.

Lemma flat_map_nil {X Y : Type} (g : X -> list Y) l :
  (forall x, g x = []) -> flat_map g l = [].
Proof.
  intros H. induction l as [|x l IH]; cbn; [reflexivity|].
  rewrite H, IH. reflexivity.
Qed.

Section Loops.

Variables (side : Side) (op : Op) (C : Matrix) (tag : Z).
Variable call_tile_tick : bool.
Variable ri : list (Z * Z).

Lemma nranks_nonneg : 0 <= nranks ri.
Proof. unfold nranks. lia. Qed.

Ltac role_cell :=
  unfold loop1, loop2, loop3, holder, update_task, trailing_tile,
    first_column, tile_of, second_at, nranks;
  destruct side; cbn [fst snd];
  repeat match goal with
         | H : _ = _ |- _ => rewrite H
         end;
  cbn [negb]; try reflexivity;
  destruct (tileIsLocal C _ _); reflexivity.

(** The three loops over [k] of one index are the role the index plays. *)
Lemma index_body_role index step :
  0 <= index -> 1 <= step ->
  index_body side C tag call_tile_tick ri index step
  = role side C tag call_tile_tick ri step index.
Proof.
  intros Hi Hs.
  assert (Hrem : Z.rem index (2 * step) = index mod (2 * step))
    by (apply Z.rem_mod_nonneg; lia).
  clear Hi Hs.
  unfold index_body, role, N, k_end.
  destruct (index mod (2 * step) =? 0) eqn:Hmul.
  - destruct (index + step <? Z.of_nat (length ri)) eqn:Hpartner.
    + unfold send_then_receive_back, sends, receives_back, local_positions,
        trailing_count.
      rewrite <- !flat_map_filter.
      rewrite (flat_map_nil (loop2 side C call_tile_tick ri index step)).
      * cbn [app]. f_equal; apply flat_map_ext; intros k; role_cell.
      * intros k. role_cell.
    + rewrite !flat_map_nil; [reflexivity| | |]; intros k; role_cell.
  - unfold receive_update_send_back, receives, sends_back, local_positions,
      trailing_count.
    rewrite <- !flat_map_filter.
    f_equal; [|f_equal]; apply flat_map_ext; intros k; role_cell.
Qed.

(** Within a stride of [step] after a multiple of [step] there is no
    other multiple. *)
Lemma no_multiple_between index step x :
  1 <= step -> index mod step = 0 -> index + 1 <= x < index + step ->
  (x mod step =? 0) = false.
Proof.
  intros Hs Hm Hx. apply Z.eqb_neq.
  assert (Hq : index = step * (index / step))
    by (rewrite (Z.div_mod index step) at 1; lia).
  rewrite <- (Z.mod_unique x step (index / step) (x - index)); lia.
Qed.

(** The loop over [index] ends, having run its body for the multiples of
    [step] in order. *)
Lemma index_loop_closed fuel index step :
  1 <= step -> 0 <= index -> index mod step = 0 ->
  Z.max 0 (nranks ri - index) < Z.of_nat fuel ->
  index_loop side C tag call_tile_tick ri fuel index step
  = Some (flat_map (role side C tag call_tile_tick ri step)
            (filter (fun i => i mod step =? 0) (Zinterval index (nranks ri)))).
Proof.
  intros Hs. revert index. induction fuel as [|f IH]; intros index Hi Hm Hf.
  - lia.
  - cbn [index_loop]. destruct (Z.ltb_spec index (nranks ri)) as [Hlt | Hge].
    + rewrite IH; try lia.
      * rewrite (Zinterval_cons index (nranks ri) Hlt). cbn [filter].
        rewrite Hm. cbn [Z.eqb flat_map].
        rewrite (filter_interval_skip _ (index + 1) (index + step)); try lia.
        -- rewrite index_body_role by lia. reflexivity.
        -- intros x Hx. apply (no_multiple_between index); lia.
      * rewrite <- Z.add_mod_idemp_r, Z.mod_same, Z.add_0_r by lia. exact Hm.
    + rewrite Zinterval_nil by lia. reflexivity.
Qed.

Lemma level_events_closed step :
  1 <= step ->
  index_loop side C tag call_tile_tick ri (S (length ri)) 0 step
  = Some (level_events side C tag call_tile_tick ri step).
Proof.
  intros Hs. rewrite index_loop_closed; try lia.
  - unfold level_events, participants, N. rewrite Zrange_interval. reflexivity.
  - apply Z.mod_0_l. lia.
  - unfold nranks. lia.
Qed.

(** The loop over the levels returns when every step it comes to is
    positive. *)
Lemma level_loop_closed d levels step :
  Forall (fun s => 1 <= s) (step_sequence d levels step) ->
  level_loop side C tag call_tile_tick ri d levels step
  = Some (map (fun s => (s, level_events side C tag call_tile_tick ri s))
              (step_sequence d levels step)).
Proof.
  revert step. induction levels as [|l IH]; intros step Hall; [reflexivity|].
  cbn [step_sequence] in Hall. inversion Hall as [|? ? Hs Hrest]; subst.
  cbn [level_loop step_sequence map].
  rewrite level_events_closed by exact Hs. rewrite IH by exact Hrest.
  reflexivity.
Qed.

End Loops.

(** ** The steps of the levels *)

Lemma step_sequence_ascend n s :
  step_sequence false n s = map (fun t => s * 2 ^ Z.of_nat t) (seq 0 n).
Proof.
  revert s. induction n as [|n IH]; intros s; [reflexivity|].
  cbn [step_sequence seq map]. rewrite IH, <- seq_shift, map_map.
  f_equal; [cbn; lia|]. apply map_ext. intros t.
  rewrite Nat2Z.inj_succ, Z.pow_succ_r; lia.
Qed.

Lemma step_sequence_descend n :
  step_sequence true n (2 ^ (Z.of_nat n - 1))
  = map (fun t => 2 ^ (Z.of_nat n - 1 - Z.of_nat t)) (seq 0 n).
Proof.
  induction n as [|n IH]; [reflexivity|].
  cbn [step_sequence seq map].
  replace (Z.of_nat (S n) - 1) with (Z.of_nat n) by lia.
  f_equal; [f_equal; lia|].
  rewrite <- seq_shift, map_map.
  assert (Hq : Z.quot (2 ^ Z.of_nat n) 2 = 2 ^ (Z.of_nat n - 1)).
  { destruct n as [|n]; [reflexivity|].
    replace (Z.of_nat (S n)) with (Z.succ (Z.of_nat n)) by lia.
    rewrite Z.pow_succ_r by lia.
    replace (Z.succ (Z.of_nat n) - 1) with (Z.of_nat n) by lia.
    rewrite Z.mul_comm. apply Z.quot_mul. lia. }
  rewrite Hq, IH. apply map_ext. intros t. f_equal. lia.
Qed.

Lemma schedule_ascend L :
  0 <= L ->
  step_sequence false (Z.to_nat L) 1 = schedule false L.
Proof.
  intros HL. rewrite step_sequence_ascend. unfold schedule, Zrange.
  rewrite map_map. apply map_ext. intros t. lia.
Qed.

Lemma schedule_descend L :
  0 <= L ->
  step_sequence true (Z.to_nat L) (2 ^ (L - 1)) = schedule true L.
Proof.
  intros HL. rewrite <- (Z2Nat.id L HL) at 2.
  rewrite step_sequence_descend. unfold schedule, Zrange.
  rewrite map_map. apply map_ext. intros t. f_equal. lia.
Qed.

Lemma schedule_positive d L :
  0 <= L -> Forall (fun s => 1 <= s) (schedule d L).
Proof.
  intros HL. apply Forall_forall. intros s Hs. unfold schedule in Hs.
  destruct d; apply in_map_iff in Hs; destruct Hs as (t & <- & Ht);
    apply in_Zrange in Ht;
    (assert (0 < 2 ^ (L - 1 - t)) by (apply Z.pow_pos_nonneg; lia)
     || assert (0 < 2 ^ t) by (apply Z.pow_pos_nonneg; lia)); lia.
Qed.

Lemma schedule_reverse L : schedule true L = rev (schedule false L).
Proof.
  unfold schedule, Zrange. rewrite !map_map.
  rewrite (rev_map_seq (fun t => 2 ^ Z.of_nat t)).
  apply map_ext_in. intros t Ht. apply in_seq in Ht. f_equal. lia.
Qed.

Lemma schedule_length d L : 0 <= L -> Z.of_nat (length (schedule d L)) = L.
Proof.
  intros HL. unfold schedule, Zrange.
  destruct d; rewrite !length_map, length_seq; lia.
Qed.

(** Line 106 computes the direction the comment before it describes. *)
Lemma descend_root_to_leaf side op : descend side op = root_to_leaf side op.
Proof. destruct side, op; reflexivity. Qed.

(** The run of the tree returns, and its levels are those of the
    specification. *)
Lemma tree_closed side op C tag tick ri :
  tree side op C tag tick ri = Some (expected side op C tag tick ri).
Proof.
  unfold tree, expected, first_step, nlevels.
  rewrite <- descend_root_to_leaf.
  change (Z.of_nat (length ri)) with (nranks ri).
  assert (HL : 0 <= Z.log2_up (nranks ri)) by apply Z.log2_up_nonneg.
  assert (Hseq : step_sequence (descend side op)
                   (Z.to_nat (Z.log2_up (nranks ri)))
                   (if descend side op
                    then 2 ^ (Z.log2_up (nranks ri) - 1) else 1)
                 = schedule (descend side op) (Z.log2_up (nranks ri))).
  { destruct (descend side op);
      [apply schedule_descend | apply schedule_ascend]; exact HL. }
  rewrite level_loop_closed; rewrite Hseq; [reflexivity|].
  apply schedule_positive, HL.
Qed.

Lemma log2_up_is_ceil_log2 n : 1 <= n -> is_ceil_log2 n (Z.log2_up n).
Proof.
  intros Hn. split; [apply Z.log2_up_nonneg|]. split.
  - destruct (Z.eq_dec n 1) as [-> | Hne]; [cbn; lia|].
    apply Z.log2_up_spec. lia.
  - intros L' HL' Hle. destruct (Z.eq_dec n 1) as [-> | Hne]; [cbn; lia|].
    assert (Hspec := Z.log2_up_spec n ltac:(lia)).
    destruct (Z_lt_le_dec L' (Z.log2_up n)) as [Hlt | Hge]; [|exact Hge].
    exfalso.
    assert (2 ^ L' <= 2 ^ Z.pred (Z.log2_up n))
      by (apply Z.pow_le_mono_r; lia).
    lia.
Qed.

Lemma ttmlq_closed side op A C tag strategy :
  ttmlq side op A C tag strategy
  = Some (expected side op C tag (call_tile_tick_of strategy) (rank_indices A)).
Proof. apply tree_closed. Qed.

Lemma in_expected side op C tag tick ri s evs :
  In (s, evs) (expected side op C tag tick ri) ->
  evs = level_events side C tag tick ri s.
Proof.
  unfold expected. rewrite in_map_iff. intros (s' & [= <- <-] & _). reflexivity.
Qed.

(** Every transfer of a role carries the tag of the call. *)
Lemma role_tag side C tag tick ri s index e t :
  In e (role side C tag tick ri s index) ->
  transfer_tag e = Some t -> t = tag.
Proof.
  unfold role, send_then_receive_back, receive_update_send_back, sends,
    receives_back, receives, sends_back.
  intros Hin Ht.
  destruct (index mod (2 * s) =? 0); [destruct (index + s <? N ri)|];
    repeat (apply in_app_or in Hin; destruct Hin as [Hin | Hin]);
    try (apply in_flat_map in Hin; destruct Hin as (k & _ & Hin));
    try destruct Hin;
    unfold update_task in *;
    repeat match type of Hin with
           | context [trailing_tile ?a ?b ?c ?d] =>
               destruct (trailing_tile a b c d)
           end;
    destruct tick; cbn in Hin;
    repeat (destruct Hin as [<- | Hin]; [cbn in Ht; congruence|]);
    destruct Hin.
Qed.

Lemma run_tag side op A C tag strategy lv s evs e t :
  ttmlq side op A C tag strategy = Some lv ->
  In (s, evs) lv -> In e evs -> transfer_tag e = Some t -> t = tag.
Proof.
  rewrite ttmlq_closed. intros [= <-] Hlv He Ht.
  apply in_expected in Hlv. subst evs. unfold level_events in He.
  apply in_flat_map in He. destruct He as (index & _ & He).
  exact (role_tag _ _ _ _ _ _ _ _ _ He Ht).
Qed.

(** The ceiling of the binary logarithm is unique. *)
Lemma is_ceil_log2_unique n L :
  1 <= n -> is_ceil_log2 n L -> L = Z.log2_up n.
Proof.
  intros Hn (HL & Hle & Hleast).
  destruct (log2_up_is_ceil_log2 n Hn) as (HL' & Hle' & Hleast').
  apply Z.le_antisymm; [apply Hleast | apply Hleast']; assumption.
Qed.

(** The steps of a run are the schedule of its direction. *)
Lemma steps_closed side op A C tag strategy :
  steps (ttmlq side op A C tag strategy)
  = Some (schedule (root_to_leaf side op)
                   (Z.log2_up (Z.of_nat (length (rank_indices A))))).
Proof.
  rewrite ttmlq_closed. unfold steps, expected, option_map.
  rewrite map_map. cbn [fst]. rewrite map_id. reflexivity.
Qed.

(** Whatever the index, what the loops do for it is one of the roles. *)
Lemma role_plays_role side C tag tick ri s index :
  plays_role side C tag tick ri s index (role side C tag tick ri s index).
Proof.
  unfold role.
  destruct (Z.eqb_spec (index mod (2 * s)) 0) as [Hm | Hm].
  - destruct (Z.ltb_spec (index + s) (N ri)) as [Hp | Hp].
    + apply plays_sender; assumption.
    + apply plays_unpartnered; assumption.
  - apply plays_receiver; [exact Hm | apply Permutation_refl].
Qed.

Lemma Forall2_map_r {X Y : Type} (P : X -> Y -> Prop) (f : X -> Y) l :
  (forall x, P x (f x)) -> Forall2 P l (map f l).
Proof.
  intros H. induction l as [|x l IH]; cbn; constructor; auto.
Qed.

(** C1.  With [N >= 1] participating ranks the run returns after as many
    levels as the ceiling of the binary logarithm of [N]; with [N = 1] there
    is no level at all, hence no event, and in particular no tile sent or
    received. *)
Theorem levels_executed (side : Side) (op : Op) (A C : Matrix) (tag : Z)
        (strategy : TileReleaseStrategy) :
  1 <= nranks (rank_indices A) ->
  exists lv,
    ttmlq side op A C tag strategy = Some lv /\
    is_ceil_log2 (nranks (rank_indices A)) (Z.of_nat (length lv)) /\
    (nranks (rank_indices A) = 1 ->
       lv = [] /\ events (ttmlq side op A C tag strategy) = Some []).
Proof.
  intros HN. eexists. split; [apply ttmlq_closed|]. split.
  - unfold expected. rewrite length_map, schedule_length
      by apply Z.log2_up_nonneg.
    apply log2_up_is_ceil_log2, HN.
  - intros H1. rewrite ttmlq_closed. unfold expected.
    change (Z.of_nat (length (rank_indices A)))
      with (nranks (rank_indices A)).
    rewrite H1. cbn.
    unfold schedule. destruct (root_to_leaf side op); split; reflexivity.
Qed.

Lemma levels_executed_witness :
  exists lv,
    ttmlq Right Trans (Network.A4 0) (Network.C4 0) 7 StrategyAll = Some lv /\
    is_ceil_log2 4 (Z.of_nat (length lv)).
Proof.
  destruct (levels_executed Right Trans (Network.A4 0) (Network.C4 0) 7
                            StrategyAll) as (lv & Hrun & Hlog & _).
  - vm_compute. discriminate.
  - exists lv. split; [exact Hrun | exact Hlog].
Defined.

(** C3.  The run returns; its levels have the steps of the schedule, and
    at the level with step [s] the calling rank goes through the participant
    indices that are multiples of [s], in ascending order, doing for each
    what its role is.  An index that is a multiple of [2*s] and has the
    partner [index + s] below the number of participants sends each trailing
    tile the rank owns to the rank holding the partner's tile, and later
    receives it back into the same tile (without a partner it does
    nothing).  An index that is not a multiple of [2*s] receives the tiles
    of the partner [index - s], applies [tpmlqt] with [A(0, j_r)] and
    [T(0, j_r)] to each received tile and its own trailing tile (one task
    per tile, in any order), and then sends the received tiles back. *)
Theorem run_follows_roles (side : Side) (op : Op) (A C : Matrix) (tag : Z)
        (strategy : TileReleaseStrategy) :
  exists lv,
    ttmlq side op A C tag strategy = Some lv /\
    map fst lv
    = schedule (root_to_leaf side op)
               (Z.log2_up (Z.of_nat (length (rank_indices A)))) /\
    forall s evs,
      In (s, evs) lv ->
      exists bodies,
        evs = concat bodies /\
        Forall2 (plays_role side C tag (call_tile_tick_of strategy)
                            (rank_indices A) s)
                (participants (rank_indices A) s) bodies.
Proof.
  eexists. split; [apply ttmlq_closed|]. split.
  - unfold expected. rewrite map_map. cbn [fst]. apply map_id.
  - intros s evs Hin. apply in_expected in Hin. subst evs.
    exists (map (role side C tag (call_tile_tick_of strategy)
                      (rank_indices A) s)
                (participants (rank_indices A) s)).
    split.
    + unfold level_events. apply flat_map_concat_map.
    + apply Forall2_map_r. intros index. apply role_plays_role.
Qed.

(** C4.  With [N >= 1] participants and [L] the ceiling of the binary
    logarithm of [N], the run has the steps [2^(L-1), ..., 2, 1] when the
    side and the operation select the direction from the root to the
    leaves, and [1, 2, ..., 2^(L-1)] when they select the direction from
    the leaves to the root; a run over the same panel in the opposite
    direction has the steps of this one in reverse order. *)
Theorem step_schedule (side : Side) (op : Op) (A C : Matrix) (tag : Z)
        (strategy : TileReleaseStrategy) (L : Z) :
  1 <= Z.of_nat (length (rank_indices A)) ->
  is_ceil_log2 (Z.of_nat (length (rank_indices A))) L ->
  steps (ttmlq side op A C tag strategy)
  = Some (if root_to_leaf side op
          then map (fun t => 2 ^ (L - 1 - t)) (Zrange L)
          else map (fun t => 2 ^ t) (Zrange L)) /\
  forall side' op' C' tag' strategy',
    root_to_leaf side' op' = negb (root_to_leaf side op) ->
    steps (ttmlq side' op' A C' tag' strategy')
    = option_map (@rev Z) (steps (ttmlq side op A C tag strategy)).
Proof.
  intros HN HL. apply is_ceil_log2_unique in HL; [|exact HN]. subst L.
  split; [apply steps_closed|].
  intros side' op' C' tag' strategy' Hopp.
  rewrite !steps_closed, Hopp. cbn [option_map]. f_equal.
  destruct (root_to_leaf side op); cbn [negb].
  - rewrite schedule_reverse. symmetry. apply rev_involutive.
  - apply schedule_reverse.
Qed.

Lemma step_schedule_witness :
  steps (ttmlq Right Trans (Network.A4 0) (Network.C4 0) 7 StrategyAll)
  = Some [1; 2] /\
  steps (ttmlq Right NoTrans (Network.A4 0) (Network.C4 0) 7 StrategyAll)
  = Some [2; 1].
Proof.
  destruct (step_schedule Right Trans (Network.A4 0) (Network.C4 0) 7
                          StrategyAll 2) as [H1 H2].
  - vm_compute. discriminate.
  - split; [lia|]. split; [vm_compute; discriminate|].
    intros L' HL' Hle.
    destruct (Z_lt_le_dec L' 2) as [Hlt | Hge]; [|exact Hge].
    assert (Hc : L' = 0 \/ L' = 1) by lia.
    destruct Hc as [-> | ->]; vm_compute in Hle; exfalso; apply Hle;
      reflexivity.
  - split; [exact H1|].
    rewrite (H2 Right NoTrans (Network.C4 0) 7 StrategyAll eq_refl), H1.
    reflexivity.
Defined.

(** C6.  An index that is a multiple of [2*step] and has no partner
    ([index + step >= N]) does nothing at the level: no tile is acquired,
    sent or received for it. *)
Theorem unpartnered_index_is_skipped (side : Side) (C : Matrix) (tag : Z)
        (call_tile_tick : bool) (rank_indices : list (Z * Z))
        (index step : Z) :
  Z.rem index (2 * step) = 0 ->
  nranks rank_indices <= index + step ->
  index_body side C tag call_tile_tick rank_indices index step = [].
Proof.
  intros Hrem Hn. unfold index_body.
  rewrite !flat_map_nil; [reflexivity| | |]; intros k;
    unfold loop1, loop2, loop3; rewrite Hrem; cbn [Z.eqb negb];
    destruct (tile_of side _ k) as [i j];
    destruct (Z.ltb_spec (index + step) (nranks rank_indices)); try lia;
    destruct (tileIsLocal C i j); reflexivity.
Qed.

Lemma unpartnered_index_is_skipped_witness :
  index_body Right (mkMatrix 1 3 (fun _ j => j) 2) 7 true
             [(0, 0); (1, 1); (2, 2)] 2 1 = [].
Proof.
  apply unpartnered_index_is_skipped; [reflexivity | vm_compute; discriminate].
Defined.



End TreeFacts.

(* ====================================================================== *)
(** * Properties of the coherency protocol *)

Module CoherencyFacts.
Import Ttmlq TreeSpec Coherency ListFacts.

Lemma coord_eqb_spec a b : reflect (a = b) (coord_eqb a b).
Proof.
  destruct a as [a1 a2], b as [b1 b2]. unfold coord_eqb. cbn.
  destruct (Z.eqb_spec a1 b1), (Z.eqb_spec a2 b2); constructor; congruence.
Qed.

Lemma MOSI_eqb_spec a b : reflect (a = b) (MOSI_eqb a b).
Proof. destruct a, b; constructor; congruence. Qed.

Section Invariant.

Variable num_devices : nat.

Local Abbreviation is_location := (is_location num_devices).
Local Abbreviation candidates := (candidates num_devices).

Lemma host_is_location : is_location HostNum = true.
Proof. reflexivity. Qed.

Lemma in_candidates l s :
  In s (candidates l) <-> is_location s = true /\ s <> l.
Proof.
  unfold Coherency.candidates, Coherency.is_location, devices.
  rewrite filter_In, negb_true_iff, Z.eqb_neq.
  assert (Hdev : forall x, In x (map Z.of_nat (seq 0 num_devices)) <->
                           ((0 <=? x) && (x <? Z.of_nat num_devices)) = true).
  { intros x. rewrite in_map_iff, andb_true_iff, Z.leb_le, Z.ltb_lt. split.
    - intros (t & <- & Ht). apply in_seq in Ht. lia.
    - intros Hx. exists (Z.to_nat x). split; [lia|]. apply in_seq. lia. }
  rewrite orb_true_iff, Z.eqb_eq.
  destruct (Z.eqb_spec l HostNum) as [-> | Hl].
  - rewrite Hdev. intuition.
  - rewrite in_app_iff, Hdev. cbn. intuition.
Qed.

Ltac on_coordinate c c' :=
  unfold update; destruct (coord_eqb_spec c' c) as [-> | ?].

(** A write acquisition leaves the acquirer [Modified] and every other
    location of the coordinate [Invalid]; other coordinates are not
    touched. *)
Lemma acquireForWriting_exclusive c l d d' :
  is_location l = true ->
  acquireForWriting num_devices c l d = Some d' ->
  state (d' c l) = Modified /\
  (forall l', l' <> l -> state (d' c l') = Invalid) /\
  forall c' l', c' <> c -> d' c' l' = d c' l'.
Proof.
  intros Hl. unfold acquireForWriting. rewrite Hl. cbn [negb].
  destruct (conflict num_devices c l d); [discriminate|].
  intros [= <-]. split; [|split].
  - unfold update. destruct (coord_eqb_spec c c); [|contradiction].
    rewrite Z.eqb_refl. reflexivity.
  - intros l' Hne. unfold update.
    destruct (coord_eqb_spec c c); [|contradiction].
    destruct (Z.eqb_spec l' l); [contradiction | reflexivity].
  - intros c' l' Hne. on_coordinate c c'; [contradiction | reflexivity].
Qed.

Lemma acquireForWriting_at_most_one c l d d' :
  (forall c', at_most_one_Modified d c') ->
  acquireForWriting num_devices c l d = Some d' ->
  forall c', at_most_one_Modified d' c'.
Proof.
  intros Hd Hw. destruct (is_location l) eqn:Hl.
  - destruct (acquireForWriting_exclusive c l d d' Hl Hw) as (_ & Hinv & Hoth).
    intros c' l1 l2 H1 H2.
    destruct (coord_eqb_spec c' c) as [-> | Hne].
    + destruct (Z.eq_dec l1 l) as [-> | N1];
        [|rewrite (Hinv l1 N1) in H1; discriminate].
      destruct (Z.eq_dec l2 l) as [-> | N2];
        [reflexivity | rewrite (Hinv l2 N2) in H2; discriminate].
    + rewrite (Hoth c' l1 Hne) in H1. rewrite (Hoth c' l2 Hne) in H2.
      exact (Hd c' l1 l2 H1 H2).
  - unfold acquireForWriting in Hw. rewrite Hl in Hw. cbn [negb] in Hw.
    injection Hw as <-. exact Hd.
Qed.

(** An operation that makes no location [Modified] keeps the first half
    of the invariant. *)
Lemma no_new_Modified d d' :
  (forall c l, state (d' c l) = Modified -> state (d c l) = Modified) ->
  (forall c, at_most_one_Modified d c) ->
  forall c, at_most_one_Modified d' c.
Proof.
  intros Hst Hd c l1 l2 H1 H2. apply (Hd c); apply Hst; assumption.
Qed.

Section Transitions.

Variable refresh_source : Z * Z -> Z -> Directory -> bool.

Local Abbreviation reachable := (reachable num_devices refresh_source).

Lemma acquireForReading_Modified c l d c' l' :
  state (acquireForReading num_devices refresh_source c l d c' l') = Modified ->
  state (d c' l') = Modified.
Proof.
  unfold acquireForReading.
  destruct (is_location l); cbn [negb]; [|auto].
  on_coordinate c c'; [|auto].
  destruct (l' =? l); [|auto].
  destruct (state (d c l')); cbn [state]; auto.
  destruct (refresh_source c l d); discriminate.
Qed.

Lemma receive_Modified c l d c' l' :
  state (receive num_devices c l d c' l') = Modified ->
  state (d c' l') = Modified.
Proof.
  unfold receive.
  destruct (is_location l); cbn [negb]; [|auto].
  on_coordinate c c'; [|auto].
  destruct (l' =? l); [discriminate | auto].
Qed.

Lemma release_Modified c l d c' l' :
  state (release c l d c' l') = Modified -> state (d c' l') = Modified.
Proof.
  unfold release. on_coordinate c c'; [|auto]. destruct (l' =? l); auto.
Qed.

Lemma evict_Modified c l d c' l' :
  state (evict c l d c' l') = Modified -> state (d c' l') = Modified.
Proof.
  unfold evict. on_coordinate c c'; [|auto].
  destruct ((l' =? l) && Nat.eqb (refs (d c l')) 0
            && negb (MOSI_eqb (state (d c l')) Modified));
    [discriminate | auto].
Qed.

Lemma dir_step_at_most_one o d :
  (forall c, at_most_one_Modified d c) ->
  forall c, at_most_one_Modified (dir_step num_devices refresh_source o d) c.
Proof.
  intros Hd. destruct o as [c l | c l | c l | c l | c l]; cbn [dir_step].
  - revert Hd. apply no_new_Modified. apply acquireForReading_Modified.
  - destruct (acquireForWriting num_devices c l d) as [d'|] eqn:E; [|exact Hd].
    exact (acquireForWriting_at_most_one c l d d' Hd E).
  - revert Hd. apply no_new_Modified. apply release_Modified.
  - revert Hd. apply no_new_Modified. apply evict_Modified.
  - revert Hd. apply no_new_Modified. apply receive_Modified.
Qed.

Lemma reachable_at_most_one d :
  reachable d -> forall c, at_most_one_Modified d c.
Proof.
  induction 1 as [d Hi | o d _ IH]; [|apply dir_step_at_most_one, IH].
  intros c l1 l2 H1. destruct (proj1 (Hi c l1) H1).
Qed.

Lemma exec_event_reachable e d d' :
  reachable d -> exec_event num_devices e d = Completed d' -> reachable d'.
Proof.
  intros Hd. destruct e; cbn [exec_event]; try (intros [= <-]; exact Hd).
  - destruct (acquireForWriting num_devices (i, j) HostNum d) as [d1|] eqn:E;
      [|discriminate].
    intros [= <-].
    replace d1 with (dir_step num_devices refresh_source
                              (AcquireForWriting (i, j) HostNum) d)
      by (cbn [dir_step]; rewrite E; reflexivity).
    apply reachable_step, Hd.
  - intros [= <-].
    apply (reachable_step num_devices refresh_source
                          (Receive (i, j) HostNum)), Hd.
  - destruct (MOSI_eqb _ _); [intros [= <-]; exact Hd | discriminate].
  - intros [= <-].
    apply (reachable_step num_devices refresh_source
                          (Release (i, j) HostNum)), Hd.
Qed.

Lemma run_events_reachable evs d d' :
  reachable d -> run_events num_devices evs d = Completed d' -> reachable d'.
Proof.
  revert d. induction evs as [|e evs IH]; intros d Hd; cbn [run_events].
  - intros [= <-]. exact Hd.
  - destruct (exec_event num_devices e d) as [d1| |] eqn:E; try discriminate.
    apply IH. exact (exec_event_reachable e d d1 Hd E).
Qed.

End Transitions.

(** ** The assertion of ttmlq *)

Local Abbreviation run := (run_events num_devices).

Lemma run_events_app a b d :
  run (a ++ b) d
  = match run a d with
    | Completed d' => run b d'
    | stop => stop
    end.
Proof.
  revert d. induction a as [|e a IH]; intros d; cbn; [reflexivity|].
  destruct (exec_event num_devices e d); auto.
Qed.

Lemma safe_app a b :
  (forall d, run a d <> AssertionFailed) ->
  (forall d, run b d <> AssertionFailed) ->
  forall d, run (a ++ b) d <> AssertionFailed.
Proof.
  intros Ha Hb d. rewrite run_events_app. specialize (Ha d).
  destruct (run a d); [apply Hb | discriminate | assumption].
Qed.

Lemma safe_flat_map {X : Type} (g : X -> list Event) l :
  (forall x, In x l -> forall d, run (g x) d <> AssertionFailed) ->
  forall d, run (flat_map g l) d <> AssertionFailed.
Proof.
  induction l as [|x l IH]; intros H; cbn; [discriminate|].
  apply safe_app; [apply H; left; reflexivity|].
  apply IH. intros y Hy. apply H. right. exact Hy.
Qed.

Lemma safe_without_assert evs :
  (forall i j, ~ In (CAssertModified i j) evs) ->
  forall d, run evs d <> AssertionFailed.
Proof.
  induction evs as [|e evs IH]; intros Hno d; [cbn; discriminate|].
  assert (Hrest : forall i j, ~ In (CAssertModified i j) evs)
    by (intros i j H; apply (Hno i j); right; exact H).
  destruct e; cbn [run_events exec_event]; try (apply IH; exact Hrest).
  - destruct (acquireForWriting num_devices (i, j) HostNum d);
      [apply IH; exact Hrest | discriminate].
  - exfalso. apply (Hno i j). left. reflexivity.
Qed.

Lemma acquireForWriting_host c d d' :
  acquireForWriting num_devices c HostNum d = Some d' ->
  state (d' c HostNum) = Modified /\
  forall c' l, c' <> c -> d' c' l = d c' l.
Proof.
  intros Hw.
  destruct (acquireForWriting_exclusive c HostNum d d' host_is_location Hw)
    as (Hm & _ & Hoth).
  split; assumption.
Qed.

Lemma receive_other c d c' l :
  c' <> c -> receive num_devices c HostNum d c' l = d c' l.
Proof.
  intros Hne. unfold receive. rewrite host_is_location. cbn [negb].
  on_coordinate c c'; [contradiction | reflexivity].
Qed.

Section Sender.

Variables (tt : Z -> Z * Z) (dst : Z -> Z) (tag : Z).

Lemma sends_leave_Modified ks d d' :
  run (flat_map (fun k => [CGetForWriting (fst (tt k)) (snd (tt k));
                           CSend (fst (tt k)) (snd (tt k)) (dst k) tag]) ks) d
  = Completed d' ->
  forall c, In c (map tt ks) \/ state (d c HostNum) = Modified ->
            state (d' c HostNum) = Modified.
Proof.
  revert d. induction ks as [|k ks IH]; intros d; cbn [flat_map map app].
  - cbn. intros [= <-] c [[] | H]. exact H.
  - cbn [run_events exec_event]. rewrite <- surjective_pairing.
    destruct (acquireForWriting num_devices (tt k) HostNum d) as [d1|] eqn:E;
      [|discriminate].
    apply acquireForWriting_host in E. destruct E as [Hm Hother].
    intros Hrun c Hc. apply (IH d1 Hrun).
    destruct Hc as [[<- | Hin] | Hmod]; [right; exact Hm | left; exact Hin |].
    right. destruct (coord_eqb_spec c (tt k)) as [-> | Hne]; [exact Hm|].
    rewrite Hother by exact Hne. exact Hmod.
Qed.

Lemma receives_pass ks d :
  NoDup (map tt ks) ->
  (forall k, In k ks -> state (d (tt k) HostNum) = Modified) ->
  run (flat_map (fun k => [CAssertModified (fst (tt k)) (snd (tt k));
                           CRecv (fst (tt k)) (snd (tt k)) (dst k) tag]) ks) d
  <> AssertionFailed.
Proof.
  revert d. induction ks as [|k ks IH]; intros d Hnd Hmod; cbn [flat_map map app].
  - cbn. discriminate.
  - cbn [run_events exec_event]. rewrite <- surjective_pairing.
    rewrite (Hmod k) by (left; reflexivity). cbn [MOSI_eqb].
    cbn [map] in Hnd. inversion Hnd as [|? ? Hk Hnd']; subst.
    apply IH; [exact Hnd'|].
    intros k' Hk'. rewrite receive_other.
    + apply Hmod. right. exact Hk'.
    + intros Heq. apply Hk. rewrite <- Heq. apply in_map. exact Hk'.
Qed.

Lemma sender_safe ks :
  NoDup (map tt ks) ->
  forall d,
    run (flat_map (fun k => [CGetForWriting (fst (tt k)) (snd (tt k));
                             CSend (fst (tt k)) (snd (tt k)) (dst k) tag]) ks
         ++ flat_map (fun k => [CAssertModified (fst (tt k)) (snd (tt k));
                                CRecv (fst (tt k)) (snd (tt k)) (dst k) tag]) ks)
        d
    <> AssertionFailed.
Proof.
  intros Hnd d. rewrite run_events_app.
  destruct (run _ d) as [d'| |] eqn:E at 1; [|discriminate|].
  - apply receives_pass; [exact Hnd|]. intros k Hk.
    apply (sends_leave_Modified ks d d' E). left. apply in_map. exact Hk.
  - exfalso. revert E. apply safe_without_assert.
    intros i j Hin. apply in_flat_map in Hin.
    destruct Hin as (k & _ & [H | [H | []]]); discriminate.
Qed.

End Sender.

Lemma trailing_tile_NoDup side C ri index :
  NoDup (map (trailing_tile side ri index) (local_positions side C ri index)).
Proof.
  apply NoDup_map_inj_in.
  - intros k k' _ _. unfold trailing_tile.
    destruct side; intros [= H]; exact H.
  - apply NoDup_filter, NoDup_Zrange.
Qed.

Lemma role_safe side C tag tick ri s index d :
  run (role side C tag tick ri s index) d <> AssertionFailed.
Proof.
  unfold role.
  destruct (index mod (2 * s) =? 0); [destruct (index + s <? N ri)|].
  - unfold send_then_receive_back, sends, receives_back.
    rewrite (flat_map_ext _
               (fun k => [CGetForWriting (fst (trailing_tile side ri index k))
                                         (snd (trailing_tile side ri index k));
                          CSend (fst (trailing_tile side ri index k))
                                (snd (trailing_tile side ri index k))
                                (holder side C ri (index + s) k) tag]))
      by (intros k; destruct (trailing_tile side ri index k); reflexivity).
    rewrite (flat_map_ext
               (fun k => let '(i, j) := trailing_tile side ri index k in
                         [CAssertModified i j;
                          CRecv i j (holder side C ri (index + s) k) tag])
               (fun k => [CAssertModified (fst (trailing_tile side ri index k))
                                          (snd (trailing_tile side ri index k));
                          CRecv (fst (trailing_tile side ri index k))
                                (snd (trailing_tile side ri index k))
                                (holder side C ri (index + s) k) tag]))
      by (intros k; destruct (trailing_tile side ri index k); reflexivity).
    apply sender_safe, trailing_tile_NoDup.
  - cbn. discriminate.
  - apply safe_without_assert. intros i j Hin.
    unfold receive_update_send_back, receives, sends_back in Hin.
    repeat (apply in_app_or in Hin; destruct Hin as [Hin | Hin]);
      apply in_flat_map in Hin; destruct Hin as (k & _ & Hin);
      unfold update_task in Hin;
      repeat match type of Hin with
             | context [trailing_tile ?a ?b ?c ?d] =>
                 destruct (trailing_tile a b c d)
             end;
      destruct tick; cbn in Hin;
      repeat (destruct Hin as [Hin | Hin]; [discriminate|]);
      destruct Hin.
Qed.

Lemma expected_safe side op C tag tick ri d :
  run (concat (map snd (expected side op C tag tick ri))) d <> AssertionFailed.
Proof.
  unfold expected. rewrite map_map. cbn [snd].
  rewrite <- flat_map_concat_map. revert d.
  apply safe_flat_map. intros s _. unfold level_events.
  apply safe_flat_map. intros index _ d. apply role_safe.
Qed.

(** With no writer on a device there is no conflict, and the events of
    ttmlq, which work on the host, keep it so. *)
Lemma no_conflict_on_host c d :
  (forall c l, l <> HostNum -> state (d c l) <> Modified) ->
  conflict num_devices c HostNum d = false.
Proof.
  intros Hd. unfold conflict. apply not_true_is_false. intros H.
  apply existsb_exists in H. destruct H as (s & Hs & H).
  apply in_candidates in Hs. destruct Hs as [_ Hs].
  apply andb_true_iff in H. destruct H as [H _].
  destruct (MOSI_eqb_spec (state (d c s)) Modified) as [Hm|]; [|discriminate].
  exact (Hd c s Hs Hm).
Qed.

Lemma run_without_conflict evs d :
  (forall c l, l <> HostNum -> state (d c l) <> Modified) ->
  run evs d <> ConflictError.
Proof.
  revert d. induction evs as [|e evs IH]; intros d Hd; [cbn; discriminate|].
  destruct e; cbn [run_events exec_event]; try (apply IH; exact Hd).
  - unfold acquireForWriting. rewrite host_is_location. cbn [negb].
    rewrite no_conflict_on_host by exact Hd.
    apply IH. intros c l Hl. on_coordinate (i, j) c; [|apply Hd; exact Hl].
    destruct (Z.eqb_spec l HostNum); [contradiction | discriminate].
  - apply IH. intros c l Hl. unfold receive. rewrite host_is_location.
    cbn [negb]. on_coordinate (i, j) c; [|apply Hd; exact Hl].
    destruct (Z.eqb_spec l HostNum); [contradiction | apply Hd; exact Hl].
  - destruct (MOSI_eqb _ _); [apply IH; exact Hd | discriminate].
  - apply IH. intros c l Hl. unfold release.
    on_coordinate (i, j) c; [|apply Hd; exact Hl].
    destruct (Z.eqb_spec l HostNum); [contradiction | apply Hd; exact Hl].
Qed.

End Invariant.




End CoherencyFacts.

(* ====================================================================== *)
(** * The four-rank scenario *)

Module ScenarioFacts.
Import Ttmlq Network.




End ScenarioFacts.

(* ====================================================================== *)
(** * Properties of test.hh *)

Module TestHhFacts.
Import Stdlib.Strings.Ascii Stdlib.Strings.String.
Import TestHh.

(** Inside the 64-bit range nothing wraps. *)
Lemma int64_wrap_in_range z :
  - 2 ^ 63 <= z <= int64_max -> int64_wrap z = z.
Proof.
  unfold int64_wrap, int64_max. intros H.
  rewrite Z.mod_small by lia. lia.
Qed.

(** Beyond it the sum wraps, and the result is no multiple above [x]. *)
Lemma roundup_wraps_beyond_range :
  roundup 9223372036854775806 4 = -9223372036854775804.
Proof. reflexivity. Qed.

(** X1.  For 64-bit integers [y > 0] and [x > -y] whose sum [x + y] is
    still inside the 64-bit range, [roundup x y] is the least multiple of [y]
    that is not below [x]: it is a multiple of [y], lies in [x, x + y), and
    no multiple of [y] from [x] on is smaller. *)
Theorem roundup_least_multiple (x y : Z) :
  0 < y <= int64_max -> - y < x -> x + y <= int64_max ->
  (y | roundup x y) /\
  x <= roundup x y < x + y /\
  forall z, (y | z) -> x <= z -> roundup x y <= z.
Proof.
  intros Hy Hx Hmax. unfold roundup.
  assert (Hm : int64_max = 2 ^ 63 - 1) by reflexivity.
  assert (Hdm := Z.div_mod (x + y - 1) y ltac:(lia)).
  assert (Hr := Z.mod_pos_bound (x + y - 1) y ltac:(lia)).
  assert (Hq0 : 0 <= (x + y - 1) / y) by (apply Z.div_pos; lia).
  assert (Hqy : (x + y - 1) / y * y <= x + y - 1) by lia.
  assert (Hq1 : (x + y - 1) / y <= x + y - 1) by nia.
  rewrite (int64_wrap_in_range (x + y)) by lia.
  rewrite (int64_wrap_in_range (x + y - 1)) by lia.
  rewrite Z.quot_div_nonneg by lia.
  rewrite (int64_wrap_in_range ((x + y - 1) / y)) by lia.
  rewrite (int64_wrap_in_range ((x + y - 1) / y * y)) by lia.
  split; [exists ((x + y - 1) / y); reflexivity|].
  split; [nia|].
  intros z [q ->] Hz. apply Z.mul_le_mono_nonneg_r; [lia|].
  assert ((x + y - 1) / y < q + 1) by (apply Z.div_lt_upper_bound; lia).
  lia.
Qed.

Lemma roundup_least_multiple_witness :
  (4 | roundup 9 4) /\ 9 <= roundup 9 4 < 9 + 4 /\ roundup 9 4 = 12.
Proof.
  destruct (roundup_least_multiple 9 4) as (Hd & Hb & _);
    [unfold int64_max; lia | lia | unfold int64_max; lia |].
  split; [exact Hd|]. split; [exact Hb | reflexivity].
Defined.

Lemma tolower_idempotent c : tolower (tolower c) = tolower c.
Proof. destruct c as [[] [] [] [] [] [] [] []]; reflexivity. Qed.

Lemma lower_idempotent s : lower (lower s) = lower s.
Proof.
  induction s as [|c s IH]; cbn; [reflexivity|].
  rewrite tolower_idempotent, IH. reflexivity.
Qed.

(** X2.  Printing an origin and parsing the name back returns the origin,
    whatever the capitalisation of the name. *)
Theorem str2origin_origin2str (o : Origin.t) (s : string) :
  lower s = origin2str o -> str2origin s = Ok o.
Proof.
  intros H. unfold str2origin. rewrite H. destruct o; reflexivity.
Qed.

Lemma str2origin_origin2str_witness :
  str2origin "ScaLAPACK" = Ok Origin.ScaLAPACK /\
  str2origin (origin2str Origin.Devices) = Ok Origin.Devices.
Proof.
  split; apply str2origin_origin2str; reflexivity.
Defined.

(** X3.  Printing a target and parsing the name back returns the target,
    whatever the capitalisation of the name. *)
Theorem str2target_target2str (t : Target.t) (s : string) :
  lower s = target2str t -> str2target s = Ok t.
Proof.
  intros H. unfold str2target. rewrite H. destruct t; reflexivity.
Qed.

Lemma str2target_target2str_witness :
  str2target "Batch" = Ok Target.HostBatch /\
  str2target (target2str Target.HostNest) = Ok Target.HostNest.
Proof.
  split; apply str2target_target2str; reflexivity.
Defined.

(** X4.  Printing a norm scope and parsing the name back returns the scope,
    whatever the capitalisation of the name. *)
Theorem str2scope_scope2str (sc : NormScope.t) (s : string) :
  lower s = scope2str sc -> str2scope s = Ok sc.
Proof.
  intros H. unfold str2scope. rewrite H. destruct sc; reflexivity.
Qed.

Lemma str2scope_scope2str_witness :
  str2scope "COLUMNS" = Ok NormScope.Columns /\
  str2scope (scope2str NormScope.Rows) = Ok NormScope.Rows.
Proof.
  split; apply str2scope_scope2str; reflexivity.
Defined.

Ltac by_literals :=
  repeat match goal with
         | |- context [(?l =? ?lit)%string] =>
             is_var l;
             destruct (String.eqb_spec l lit) as [-> | ?]; cbn
         end.

(** X5.  A string that names both an origin and a target names the target
    the origin is mapped to: where [str2origin] and [str2target] both
    return, [origin2target] of the origin is the target. *)
Theorem origin_and_target_agree (s : string) (o : Origin.t) (t : Target.t) :
  str2origin s = Ok o -> str2target s = Ok t -> origin2target o = Ok t.
Proof.
  unfold str2origin, str2target. generalize (lower s). intros l.
  by_literals; intros Ho Ht; try discriminate;
    injection Ho as <-; injection Ht as <-; reflexivity.
Qed.

Lemma origin_and_target_agree_witness :
  origin2target Origin.Devices = Ok Target.Devices.
Proof.
  apply (origin_and_target_agree "Dev"); reflexivity.
Defined.

(** X6.  The three parsers do not tell capital from small letters: a string
    and its lower-case form parse alike, to the same value or to the same
    exception. *)
Theorem parsers_ignore_case (s : string) :
  str2origin (lower s) = str2origin s /\
  str2target (lower s) = str2target s /\
  str2scope (lower s) = str2scope s.
Proof.
  unfold str2origin, str2target, str2scope.
  rewrite lower_idempotent. repeat split.
Qed.

End TestHhFacts.

(* ====================================================================== *)
(** * Properties of the batched device kernels *)

Module DeviceScaleFacts.
Import Device DeviceScale ListFacts DeviceFacts.

Lemma fold_left_through_map {X Y St : Type} (f : St -> Y -> St) (g : X -> Y)
      l st :
  fold_left f (map g l) st = fold_left (fun s x => f s (g x)) l st.
Proof.
  revert st. induction l as [|x l IH]; intros st; [reflexivity|]. cbn. apply IH.
Qed.

Lemma flat_map_empty {X Y : Type} (g : X -> list Y) l :
  (forall x, g x = []) -> flat_map g l = [].
Proof.
  intros H. induction l as [|x l IH]; cbn; [reflexivity|].
  rewrite H, IH. reflexivity.
Qed.

Lemma Zrange_nonpos n : n <= 0 -> Zrange n = [].
Proof.
  intros H. unfold Zrange. replace (Z.to_nat n) with O by lia. reflexivity.
Qed.

(** ** The cells of a batch *)

Lemma in_batch_cells m n bc k i j :
  In (k, i, j) (batch_cells m n bc) <->
  0 <= k < bc /\ 0 <= i < m /\ 0 <= j < n.
Proof.
  unfold batch_cells. rewrite in_flat_map. split.
  - intros (k' & Hk & H). apply in_flat_map in H. destruct H as (i' & Hi & H).
    apply in_map_iff in H. destruct H as (j' & [= <- <- <-] & Hj).
    rewrite <- !in_Zrange. auto.
  - intros (Hk & Hi & Hj). exists k. split; [apply in_Zrange, Hk|].
    apply in_flat_map. exists i. split; [apply in_Zrange, Hi|].
    apply in_map_iff. exists j. split; [reflexivity | apply in_Zrange, Hj].
Qed.

Lemma batch_cells_empty m n bc :
  bc <= 0 \/ m <= 0 \/ n <= 0 -> batch_cells m n bc = [].
Proof.
  unfold batch_cells. intros [H | [H | H]].
  - rewrite (Zrange_nonpos bc H). reflexivity.
  - apply flat_map_empty. intros k. rewrite (Zrange_nonpos m H). reflexivity.
  - apply flat_map_empty. intros k. apply flat_map_empty. intros i.
    rewrite (Zrange_nonpos n H). reflexivity.
Qed.

Lemma batch_cells_NoDup m n bc : NoDup (batch_cells m n bc).
Proof.
  unfold batch_cells. apply NoDup_flat_map.
  - apply NoDup_Zrange.
  - intros k _. apply NoDup_flat_map.
    + apply NoDup_Zrange.
    + intros i _. apply NoDup_map_inj_in; [|apply NoDup_Zrange].
      intros j j' _ _ [= H]. exact H.
    + intros i i' c _ _ Hc Hc'. apply in_map_iff in Hc, Hc'.
      destruct Hc as (j & <- & _), Hc' as (j' & [= H _] & _). congruence.
  - intros k k' c _ _ Hc Hc'.
    apply in_flat_map in Hc, Hc'.
    destruct Hc as (i & _ & Hc), Hc' as (i' & _ & Hc').
    apply in_map_iff in Hc, Hc'.
    destruct Hc as (j & <- & _), Hc' as (j' & [= H _ _] & _). congruence.
Qed.

Lemma cell_addresses_NoDup m n lda Aarray bc :
  m <= lda -> tiles_apart m n lda Aarray bc ->
  NoDup (map (cell_address Aarray lda) (batch_cells m n bc)).
Proof.
  intros Hm Hapart. apply NoDup_map_inj_in; [|apply batch_cells_NoDup].
  intros [[k i] j] [[k' i'] j'] Hc Hc' Heq.
  apply in_batch_cells in Hc, Hc'.
  destruct Hc as (Hk & Hi & Hj), Hc' as (Hk' & Hi' & Hj').
  assert (k = k') by exact (Hapart k k' i j i' j' Hk Hk' Hi Hj Hi' Hj' Heq).
  subst k'. cbn in Heq.
  destruct (offset_injective m lda i j i' j'); try lia. congruence.
Qed.

(** The three nested loops of a batched kernel visit the cells of the
    batch. *)
Lemma batch_loops_fold {St : Type} (upd : Z -> Z -> Z -> St -> St)
      m n bc (st : St) :
  for_range bc (fun k => for_range m (fun i => for_range n (fun j =>
    upd k i j))) st
  = fold_left (fun s c => let '(k, i, j) := c in upd k i j s)
              (batch_cells m n bc) st.
Proof.
  unfold batch_cells. rewrite for_range_fold, fold_flat_map.
  apply fold_left_ext_in. intros s k.
  rewrite for_range_fold, fold_flat_map.
  apply fold_left_ext_in. intros s' i.
  rewrite for_range_fold, fold_left_through_map. reflexivity.
Qed.

(** ** Read-modify-write sequences *)

Section Modify.

Context {scalar_t : Type}.
Implicit Types M : Mem scalar_t.
Implicit Types us : list (Z * (scalar_t -> scalar_t)).

Lemma modify_all_stored us M :
  stored (modify_all us M) = rev (map fst us) ++ stored M.
Proof.
  unfold modify_all. revert M.
  induction us as [|u us IH]; intros M; [reflexivity|].
  cbn [fold_left map rev]. rewrite IH, <- app_assoc. reflexivity.
Qed.

Lemma modify_all_elsewhere us M a :
  ~ In a (map fst us) -> load (modify_all us M) a = load M a.
Proof.
  unfold modify_all. revert M.
  induction us as [|u us IH]; intros M Hn; [reflexivity|].
  cbn [fold_left]. rewrite IH by (intros H; apply Hn; right; exact H).
  cbn. destruct (Z.eqb_spec a (fst u)) as [->|]; [|reflexivity].
  exfalso. apply Hn. left. reflexivity.
Qed.

Lemma modify_all_at us M a f :
  NoDup (map fst us) -> In (a, f) us ->
  load (modify_all us M) a = f (load M a).
Proof.
  revert M. induction us as [|u us IH]; intros M Hnd Hin; [destruct Hin|].
  cbn [map] in Hnd. inversion Hnd as [|? ? Hu Hnd']; subst.
  destruct Hin as [-> | Hin].
  - change (modify_all ((a, f) :: us) M)
      with (modify_all us (store a (f (load M a)) M)).
    rewrite modify_all_elsewhere by exact Hu.
    cbn. rewrite Z.eqb_refl. reflexivity.
  - change (modify_all (u :: us) M)
      with (modify_all us (store (fst u) (snd u (load M (fst u))) M)).
    rewrite (IH _ Hnd' Hin). cbn.
    destruct (Z.eqb_spec a (fst u)) as [-> | Hne]; [|reflexivity].
    exfalso. apply Hu. apply in_map_iff. exists (fst u, f). auto.
Qed.

(** A batched kernel that rewrites each cell from its own content. *)
Lemma batch_kernel_as_modify (g : Z -> Z -> Z -> scalar_t -> scalar_t)
      m n Aarray lda bc M :
  for_range bc (fun k => for_range m (fun i => for_range n (fun j =>
    fun M' =>
      store (nth (Z.to_nat k) Aarray 0 + i + j * lda)
            (g k i j (load M' (nth (Z.to_nat k) Aarray 0 + i + j * lda)))
            M'))) M
  = modify_all
      (map (fun c => (cell_address Aarray lda c,
                      let '(k, i, j) := c in g k i j))
           (batch_cells m n bc)) M.
Proof.
  rewrite (batch_loops_fold
             (fun k i j M' =>
                store (nth (Z.to_nat k) Aarray 0 + i + j * lda)
                      (g k i j (load M' (nth (Z.to_nat k) Aarray 0
                                         + i + j * lda))) M')).
  unfold modify_all. rewrite fold_left_through_map.
  apply fold_left_ext_in. intros s [[k i] j]. reflexivity.
Qed.

Lemma batch_kernel_load (g : Z -> Z -> Z -> scalar_t -> scalar_t)
      m n Aarray lda bc M :
  m <= lda -> tiles_apart m n lda Aarray bc ->
  (forall k i j, 0 <= k < bc -> 0 <= i < m -> 0 <= j < n ->
     load (modify_all
             (map (fun c => (cell_address Aarray lda c,
                             let '(k, i, j) := c in g k i j))
                  (batch_cells m n bc)) M)
          (cell_address Aarray lda (k, i, j))
     = g k i j (load M (cell_address Aarray lda (k, i, j)))) /\
  (forall a,
     (forall k i j, 0 <= k < bc -> 0 <= i < m -> 0 <= j < n ->
        a <> cell_address Aarray lda (k, i, j)) ->
     load (modify_all
             (map (fun c => (cell_address Aarray lda c,
                             let '(k, i, j) := c in g k i j))
                  (batch_cells m n bc)) M) a
     = load M a).
Proof.
  intros Hm Hapart. split.
  - intros k i j Hk Hi Hj.
    apply (modify_all_at _ M (cell_address Aarray lda (k, i, j)) (g k i j)).
    + rewrite map_map. cbn [fst].
      apply cell_addresses_NoDup; assumption.
    + apply in_map_iff. exists (k, i, j). split; [reflexivity|].
      apply in_batch_cells. auto.
  - intros a Ha. apply modify_all_elsewhere.
    rewrite map_map. cbn [fst]. intros Hin. apply in_map_iff in Hin.
    destruct Hin as ([[k i] j] & Heq & Hc). apply in_batch_cells in Hc.
    destruct Hc as (Hk & Hi & Hj). exact (Ha k i j Hk Hi Hj (eq_sym Heq)).
Qed.

End Modify.

(** ** gescale_row_col_batch *)

Section GescaleFacts.

Context {scalar_t scalar_t2 : Type}.
Variable mul : scalar_t -> scalar_t2 -> scalar_t.
Variable mul2 : scalar_t2 -> scalar_t2 -> scalar_t2.
Variable factors : Z -> scalar_t2.

Implicit Types M : Mem scalar_t.

Local Abbreviation gescale := (gescale_row_col_batch mul mul2 factors).

(** What the dispatch does to the content [v] of the cell [(k, i, j)]. *)
Lemma gescale_as_modify equed m n Rarray Carray Aarray lda bc M :
  gescale equed m n Rarray Carray Aarray lda bc M
  = modify_all
      (map (fun c => (cell_address Aarray lda c,
                      let '(k, i, j) := c in
                      fun v => match factor mul2 factors equed
                                            Rarray Carray k i j with
                               | Some x => mul v x
                               | None => v
                               end))
           (match equed with
            | Equed.None => []
            | _ => batch_cells m n bc
            end)) M.
Proof.
  unfold gescale_row_col_batch.
  destruct (Z.eqb_spec bc 0) as [-> | Hbc].
  - rewrite (batch_cells_empty m n 0) by lia. destruct equed; reflexivity.
  - destruct equed; [reflexivity| | |].
    + apply (batch_kernel_as_modify
               (fun k i j v =>
                  mul v (factors (nth (Z.to_nat k) Rarray 0 + i)))).
    + apply (batch_kernel_as_modify
               (fun k i j v =>
                  mul v (factors (nth (Z.to_nat k) Carray 0 + j)))).
    + apply (batch_kernel_as_modify
               (fun k i j v =>
                  mul v (mul2 (factors (nth (Z.to_nat k) Rarray 0 + i))
                              (factors (nth (Z.to_nat k) Carray 0 + j))))).
Qed.

Lemma gescale_load equed m n Rarray Carray Aarray lda bc M :
  m <= lda -> tiles_apart m n lda Aarray bc ->
  (forall k i j, 0 <= k < bc -> 0 <= i < m -> 0 <= j < n ->
     load (gescale equed m n Rarray Carray Aarray lda bc M)
          (cell_address Aarray lda (k, i, j))
     = match factor mul2 factors equed Rarray Carray k i j with
       | Some x => mul (load M (cell_address Aarray lda (k, i, j))) x
       | None => load M (cell_address Aarray lda (k, i, j))
       end) /\
  (forall a,
     (forall k i j, 0 <= k < bc -> 0 <= i < m -> 0 <= j < n ->
        a <> cell_address Aarray lda (k, i, j)) ->
     load (gescale equed m n Rarray Carray Aarray lda bc M) a = load M a).
Proof.
  intros Hm Hapart. rewrite gescale_as_modify.
  destruct equed; [split; intros; reflexivity| | |];
    exact (batch_kernel_load _ m n Aarray lda bc M Hm Hapart).
Qed.

(** X7.  On a batch of tiles that do not overlap, with [m <= lda],
    [gescale_row_col_batch] multiplies the element [(i, j)] of every tile by
    [R(i)] for [Equed::Row], by [C(j)] for [Equed::Col] and by [R(i) * C(j)]
    for [Equed::Both], leaves it as it is for any other [equed], and leaves
    every cell outside the tiles as it was. *)
Theorem gescale_postcondition (equed : Equed.t) (m n : Z)
        (Rarray Carray Aarray : list Z) (lda batch_count : Z)
        (M : Mem scalar_t) :
  m <= lda -> tiles_apart m n lda Aarray batch_count ->
  (forall k i j, 0 <= k < batch_count -> 0 <= i < m -> 0 <= j < n ->
     load (gescale_row_col_batch mul mul2 factors equed m n Rarray Carray
                                 Aarray lda batch_count M)
          (nth (Z.to_nat k) Aarray 0 + i + j * lda)
     = let v := load M (nth (Z.to_nat k) Aarray 0 + i + j * lda) in
       let r := factors (nth (Z.to_nat k) Rarray 0 + i) in
       let c := factors (nth (Z.to_nat k) Carray 0 + j) in
       match equed with
       | Equed.Row => mul v r
       | Equed.Col => mul v c
       | Equed.Both => mul v (mul2 r c)
       | Equed.None => v
       end) /\
  (forall a,
     (forall k i j, 0 <= k < batch_count -> 0 <= i < m -> 0 <= j < n ->
        a <> nth (Z.to_nat k) Aarray 0 + i + j * lda) ->
     load (gescale_row_col_batch mul mul2 factors equed m n Rarray Carray
                                 Aarray lda batch_count M) a
     = load M a).
Proof.
  intros Hm Hapart.
  destruct (gescale_load equed m n Rarray Carray Aarray lda batch_count M
                         Hm Hapart) as [Hin Hout].
  split.
  - intros k i j Hk Hi Hj. specialize (Hin k i j Hk Hi Hj).
    cbn [cell_address] in Hin. rewrite Hin. destruct equed; reflexivity.
  - exact Hout.
Qed.

(** X8.  [gescale_row_col_batch] stores nothing and changes nothing when
    the batch is empty, when [m] or [n] is not positive, or when [equed]
    is none of [Row], [Col], [Both]. *)
Theorem gescale_does_nothing (equed : Equed.t) (m n : Z)
        (Rarray Carray Aarray : list Z) (lda batch_count : Z)
        (M : Mem scalar_t) :
  batch_count <= 0 \/ m <= 0 \/ n <= 0 \/ equed = Equed.None ->
  gescale_row_col_batch mul mul2 factors equed m n Rarray Carray
                        Aarray lda batch_count M = M.
Proof.
  intros H. rewrite gescale_as_modify.
  assert (E : match equed with
              | Equed.None => []
              | _ => batch_cells m n batch_count
              end = []).
  { destruct H as [H | [H | [H | ->]]]; [| | |reflexivity];
      destruct equed; try reflexivity; apply batch_cells_empty; auto. }
  rewrite E. reflexivity.
Qed.

End GescaleFacts.

Lemma two_tiles_apart : tiles_apart 2 2 2 [0; 4] 2.
Proof.
  intros k k' i j i' j' Hk Hk' Hi Hj Hi' Hj'.
  assert (Hc : (k = 0 \/ k = 1) /\ (k' = 0 \/ k' = 1)) by lia.
  destruct Hc as [[-> | ->] [-> | ->]]; unfold cell_address;
    change (nth (Z.to_nat 0) [0; 4] 0) with 0;
    change (nth (Z.to_nat 1) [0; 4] 0) with 4; lia.
Qed.

Lemma gescale_postcondition_witness :
  load (gescale_row_col_batch Z.mul Z.mul (fun p => p + 2) Equed.Both 2 2
          [10; 20] [30; 40] [0; 4] 2 2 (mkMem (fun _ => 1) []))
       (4 + 1 + 1 * 2)
  = 1 * ((20 + 1 + 2) * (40 + 1 + 2)).
Proof.
  apply (proj1 (gescale_postcondition Z.mul Z.mul (fun p => p + 2) Equed.Both
                  2 2 [10; 20] [30; 40] [0; 4] 2 2 (mkMem (fun _ => 1) [])
                  ltac:(lia) two_tiles_apart) 1 1 1); lia.
Defined.

Lemma gescale_does_nothing_witness :
  gescale_row_col_batch Z.mul Z.mul (fun p => p) Equed.Row 0 3
                        [10] [30] [0] 4 1 (mkMem (fun _ => 1) [])
  = mkMem (fun _ => 1) [].
Proof.
  apply gescale_does_nothing. right. left. lia.
Defined.

(** ** geset, once more *)

Section GesetMore.

Context {scalar_t : Type}.
Implicit Types M : Mem scalar_t.
Implicit Types off diag : scalar_t.

Lemma batch_geset_as_modify m n off diag Aarray lda bc M :
  batch_geset m n off diag Aarray lda bc M
  = modify_all
      (map (fun c => (cell_address Aarray lda c,
                      let '(k, i, j) := c in
                      fun _ : scalar_t =>
                        if negb (j =? i) then off else diag))
           (batch_cells m n bc)) M.
Proof.
  unfold batch_geset.
  destruct (Z.eqb_spec bc 0) as [-> | Hbc];
    [rewrite (batch_cells_empty m n 0) by lia; reflexivity|].
  destruct (Z.eqb_spec m 0) as [-> | Hm0];
    [rewrite (batch_cells_empty 0 n bc) by lia; reflexivity|].
  destruct (Z.eqb_spec n 0) as [-> | Hn0];
    [rewrite (batch_cells_empty m 0 bc) by lia; reflexivity|].
  cbn [orb].
  apply (batch_kernel_as_modify
           (fun k i j _ => if negb (j =? i) then off else diag)).
Qed.

(** X10.  On a batch of tiles that do not overlap, with [m <= lda],
    [batch::geset] leaves [diag_value] on the diagonal and [offdiag_value]
    off the diagonal of every tile, and every cell outside the tiles as it
    was. *)
Theorem batch_geset_postcondition (m n : Z) (offdiag_value diag_value : scalar_t)
        (Aarray : list Z) (lda batch_count : Z) (M : Mem scalar_t) :
  m <= lda -> tiles_apart m n lda Aarray batch_count ->
  (forall k i j, 0 <= k < batch_count -> 0 <= i < m -> 0 <= j < n ->
     load (batch_geset m n offdiag_value diag_value Aarray lda batch_count M)
          (nth (Z.to_nat k) Aarray 0 + i + j * lda)
     = if i =? j then diag_value else offdiag_value) /\
  (forall a,
     (forall k i j, 0 <= k < batch_count -> 0 <= i < m -> 0 <= j < n ->
        a <> nth (Z.to_nat k) Aarray 0 + i + j * lda) ->
     load (batch_geset m n offdiag_value diag_value Aarray lda batch_count M) a
     = load M a).
Proof.
  intros Hm Hapart. rewrite batch_geset_as_modify.
  destruct (batch_kernel_load
              (fun k i j (_ : scalar_t) =>
                 if negb (j =? i) then offdiag_value else diag_value)
              m n Aarray lda batch_count M Hm Hapart) as [Hin Hout].
  split; [|exact Hout].
  intros k i j Hk Hi Hj. specialize (Hin k i j Hk Hi Hj).
  cbn [cell_address] in Hin. rewrite Hin.
  rewrite (Z.eqb_sym j i). destruct (i =? j); reflexivity.
Qed.

Lemma length_flat_map_const {X Y : Type} (g : X -> list Y) l c :
  (forall x, length (g x) = c) ->
  length (flat_map g l) = (length l * c)%nat.
Proof.
  intros H. induction l as [|x l IH]; cbn; [reflexivity|].
  rewrite length_app, H, IH. reflexivity.
Qed.

Lemma geset_stores_length m n off diag A lda :
  0 <= m -> 0 <= n ->
  Z.of_nat (length (geset_stores m n off diag A lda)) = m * n.
Proof.
  intros Hm Hn. unfold geset_stores.
  rewrite (length_flat_map_const _ _ (Z.to_nat n)).
  - unfold Zrange. rewrite length_map, length_seq. lia.
  - intros i. unfold Zrange. rewrite !length_map, length_seq. reflexivity.
Qed.

(** X11.  With [0 <= m <= lda] and [n >= 0], [geset] stores [m * n] times,
    each time to another cell, and to the cells of the m-by-n matrix only:
    no two iterations of its offloaded loops touch the same cell. *)
Theorem geset_stores_each_cell_once (m n : Z) (offdiag_value diag_value : scalar_t)
        (A lda : Z) (M : Mem scalar_t) :
  0 <= m <= lda -> 0 <= n ->
  exists addresses,
    stored (geset m n offdiag_value diag_value A lda M)
    = addresses ++ stored M /\
    NoDup addresses /\
    Z.of_nat (length addresses) = m * n /\
    forall a, In a addresses <->
              exists i j, 0 <= i < m /\ 0 <= j < n /\ a = A + i + j * lda.
Proof.
  intros Hm Hn.
  exists (rev (map fst (geset_stores m n offdiag_value diag_value A lda))).
  rewrite geset_as_stores, stored_fold. split; [reflexivity|]. split; [|split].
  - apply NoDup_rev, geset_addresses_NoDup, Hm.
  - rewrite length_rev, length_map. apply geset_stores_length; lia.
  - intros a. rewrite <- in_rev, in_map_iff. split.
    + intros ([a' v] & Heq & Hin). cbn in Heq. subst a'.
      apply in_geset_stores in Hin.
      destruct Hin as (i & j & Hi & Hj & Ha & _). exists i, j. auto.
    + intros (i & j & Hi & Hj & ->).
      exists (A + i + j * lda,
              if negb (j =? i) then offdiag_value else diag_value).
      split; [reflexivity|]. apply in_geset_stores. exists i, j. auto.
Qed.

Lemma geset_load m n off diag A lda M a :
  0 <= m <= lda ->
  (forall i j, 0 <= i < m -> 0 <= j < n -> a = A + i + j * lda ->
     load (geset m n off diag A lda M) a
     = if negb (j =? i) then off else diag) /\
  ((forall i j, 0 <= i < m -> 0 <= j < n -> a <> A + i + j * lda) ->
     load (geset m n off diag A lda M) a = load M a).
Proof.
  intros Hm. rewrite geset_as_stores. split.
  - intros i j Hi Hj ->. apply load_stored.
    + apply in_geset_stores. exists i, j. auto.
    + intros v' Hv'. apply in_geset_stores in Hv'.
      destruct Hv' as (i' & j' & Hi' & Hj' & Heq & ->).
      destruct (offset_injective m lda i j i' j') as [<- <-]; try lia.
      reflexivity.
  - intros Ha. apply load_not_stored. intros Hin.
    apply in_map_iff in Hin. destruct Hin as ([a' v] & Heq & Hin).
    cbn in Heq. subst a'. apply in_geset_stores in Hin.
    destruct Hin as (i & j & Hi & Hj & Heq & _). exact (Ha i j Hi Hj Heq).
Qed.

(** X12.  With [0 <= m <= lda], a [geset] on a matrix overrides an earlier
    [geset] on the same matrix entirely: the memory reads as if only the
    later one had run.  In particular [geset] is idempotent. *)
Theorem geset_overrides_geset (m n : Z) (off1 diag1 off2 diag2 : scalar_t)
        (A lda : Z) (M : Mem scalar_t) (a : Z) :
  0 <= m <= lda ->
  load (geset m n off2 diag2 A lda (geset m n off1 diag1 A lda M)) a
  = load (geset m n off2 diag2 A lda M) a.
Proof.
  intros Hm.
  destruct (geset_load m n off2 diag2 A lda
                       (geset m n off1 diag1 A lda M) a Hm) as [In2 Out2].
  destruct (geset_load m n off2 diag2 A lda M a Hm) as [In2' Out2'].
  destruct (geset_load m n off1 diag1 A lda M a Hm) as [_ Out1].
  destruct (in_dec Z.eq_dec a
              (map fst (geset_stores m n off2 diag2 A lda))) as [Hin | Hnot].
  - apply in_map_iff in Hin. destruct Hin as ([a' v] & Heq & Hin).
    cbn in Heq. subst a'. apply in_geset_stores in Hin.
    destruct Hin as (i & j & Hi & Hj & Heq & _).
    rewrite (In2 i j Hi Hj Heq), (In2' i j Hi Hj Heq). reflexivity.
  - assert (Hout : forall i j, 0 <= i < m -> 0 <= j < n ->
                               a <> A + i + j * lda).
    { intros i j Hi Hj ->. apply Hnot. apply in_map_iff.
      exists (A + i + j * lda, if negb (j =? i) then off2 else diag2).
      split; [reflexivity|]. apply in_geset_stores. exists i, j. auto. }
    rewrite (Out2 Hout), (Out2' Hout), (Out1 Hout). reflexivity.
Qed.

End GesetMore.

Lemma batch_geset_postcondition_witness :
  load (batch_geset 2 2 0 1 [0; 4] 2 2 (mkMem (fun _ => 7) [])) (4 + 1 + 1 * 2)
  = 1 /\
  load (batch_geset 2 2 0 1 [0; 4] 2 2 (mkMem (fun _ => 7) [])) (0 + 1 + 0 * 2)
  = 0.
Proof.
  destruct (batch_geset_postcondition 2 2 0 1 [0; 4] 2 2
              (mkMem (fun _ => 7) []) ltac:(lia) two_tiles_apart) as [H _].
  split; [apply (H 1 1 1) | apply (H 0 1 0)]; lia.
Defined.

Lemma geset_stores_each_cell_once_witness :
  exists addresses,
    stored (geset 2 3 0 1 10 4 (mkMem (fun _ => 7) [])) = addresses ++ [] /\
    NoDup addresses /\ Z.of_nat (length addresses) = 2 * 3.
Proof.
  destruct (geset_stores_each_cell_once 2 3 0 1 10 4 (mkMem (fun _ => 7) []))
    as (addresses & Hs & Hnd & Hlen & _); [lia | lia |].
  exists addresses. auto.
Defined.

Lemma geset_overrides_geset_witness :
  load (geset 2 2 5 6 10 3 (geset 2 2 0 1 10 3 (mkMem (fun _ => 7) []))) 11
  = load (geset 2 2 5 6 10 3 (mkMem (fun _ => 7) [])) 11.
Proof.
  apply geset_overrides_geset. lia.
Defined.

End DeviceScaleFacts.

(* ====================================================================== *)
(** * More properties of BandMatrix *)

Module BandMatrixMoreFacts.
Import Ttmlq BandMatrix BandOrigin ListFacts.

(** X13.  The two bandwidths are set independently: setting the lower
    bandwidth leaves the upper bandwidth and the transposition as they are,
    and the other way round; the two setters commute, and of two calls of
    one setter the later one counts. *)
Theorem bandwidth_setters_independent (A : t) (k k' : Z) :
  upperBandwidth (set_lowerBandwidth k A) = upperBandwidth A /\
  lowerBandwidth (set_upperBandwidth k A) = lowerBandwidth A /\
  op (set_lowerBandwidth k A) = op A /\
  op (set_upperBandwidth k A) = op A /\
  set_lowerBandwidth k (set_upperBandwidth k' A)
  = set_upperBandwidth k' (set_lowerBandwidth k A) /\
  set_lowerBandwidth k (set_lowerBandwidth k' A) = set_lowerBandwidth k A /\
  set_upperBandwidth k (set_upperBandwidth k' A) = set_upperBandwidth k A.
Proof.
  destruct A as [o l u].
  unfold upperBandwidth, lowerBandwidth, set_lowerBandwidth,
    set_upperBandwidth.
  destruct o; cbn; repeat split; reflexivity.
Qed.

Lemma NoDup_Zinterval lo hi : NoDup (Zinterval lo hi).
Proof.
  unfold Zinterval. apply NoDup_map_inj_in; [|apply seq_NoDup].
  intros x y _ _ H. lia.
Qed.

Lemma tileUpdateAllOrigin_NoDup B base tileNb0 :
  NoDup (tileUpdateAllOrigin B base tileNb0).
Proof.
  unfold tileUpdateAllOrigin. apply NoDup_flat_map.
  - apply NoDup_Zrange.
  - intros j _. apply NoDup_flat_map.
    + apply NoDup_Zinterval.
    + intros i _. destruct (tileIsLocal base i j); repeat constructor.
      intros [].
    + intros i i' c _ _ Hc Hc'.
      destruct (tileIsLocal base i j); [|destruct Hc].
      destruct (tileIsLocal base i' j); [|destruct Hc'].
      destruct Hc as [<- | []], Hc' as [[= H] | []]. congruence.
  - intros j j' c _ _ Hc Hc'.
    apply in_flat_map in Hc, Hc'.
    destruct Hc as (i & _ & Hc), Hc' as (i' & _ & Hc').
    destruct (tileIsLocal base i j); [|destruct Hc].
    destruct (tileIsLocal base i' j'); [|destruct Hc'].
    destruct Hc as [<- | []], Hc' as [[= _ H] | []]. congruence.
Qed.

Lemma in_tileUpdateAllOrigin B base tileNb0 i j :
  In (i, j) (tileUpdateAllOrigin B base tileNb0) <->
  0 <= i < mt base /\ 0 <= j < nt base /\
  j - ceildiv (ku_ B) tileNb0 <= i <= j + ceildiv (kl_ B) tileNb0 /\
  tileIsLocal base i j = true.
Proof.
  unfold tileUpdateAllOrigin. rewrite in_flat_map. split.
  - intros (j' & Hj & H). apply in_flat_map in H.
    destruct H as (i' & Hi & H).
    destruct (tileIsLocal base i' j') eqn:Hloc; [|destruct H].
    destruct H as [[= <- <-] | []].
    apply in_Zrange in Hj. apply in_Zinterval in Hi.
    repeat split; try lia. exact Hloc.
  - intros (Hi & Hj & Hband & Hloc). exists j.
    split; [apply in_Zrange, Hj|]. apply in_flat_map. exists i.
    split; [apply in_Zinterval; lia|]. rewrite Hloc. left. reflexivity.
Qed.

(** X14.  [tileUpdateAllOrigin] calls [tileUpdateOrigin] once on each tile
    [(i, j)] of the matrix that is local and lies in the band of tiles
    [j - kut <= i <= j + klt], and on no other tile. *)
Theorem tileUpdateAllOrigin_tiles (B : t) (base : Matrix) (tileNb0 : Z) :
  let klt := ceildiv (kl_ B) tileNb0 in
  let kut := ceildiv (ku_ B) tileNb0 in
  NoDup (tileUpdateAllOrigin B base tileNb0) /\
  forall i j,
    In (i, j) (tileUpdateAllOrigin B base tileNb0) <->
    0 <= i < mt base /\ 0 <= j < nt base /\
    j - kut <= i <= j + klt /\
    tileIsLocal base i j = true.
Proof.
  intros klt kut. split;
    [apply tileUpdateAllOrigin_NoDup | apply in_tileUpdateAllOrigin].
Qed.

Lemma ceildiv_covers k nb : 0 <= k -> 0 < nb -> k <= ceildiv k nb * nb.
Proof.
  intros Hk Hnb. unfold ceildiv. rewrite Z.quot_div_nonneg by lia.
  assert (Hdm := Z.div_mod (k + nb - 1) nb ltac:(lia)).
  assert (Hr := Z.mod_pos_bound (k + nb - 1) nb Hnb). nia.
Qed.

Lemma tile_index_shift x y t nb :
  0 < nb -> x <= y + t * nb -> x / nb <= y / nb + t.
Proof.
  intros Hnb H. rewrite <- Z.div_add by lia. apply Z.div_le_mono; lia.
Qed.

(** X15.  For a band matrix that is not transposed, with square tiles of one
    positive size [nb] and bandwidths that are not negative, [tileUpdateAllOrigin] reaches
    every local tile that holds an element of the band: if the element
    [(r, c)] has [-ku <= r - c <= kl] and its tile [(r / nb, c / nb)] is a
    local tile of the matrix, [tileUpdateOrigin] is called on that tile. *)
Theorem tileUpdateAllOrigin_covers_band (B : t) (base : Matrix)
        (tileNb0 r c : Z) :
  op B = NoTrans -> 0 < tileNb0 ->
  0 <= lowerBandwidth B -> 0 <= upperBandwidth B ->
  0 <= r -> 0 <= c ->
  - upperBandwidth B <= r - c <= lowerBandwidth B ->
  r / tileNb0 < mt base -> c / tileNb0 < nt base ->
  tileIsLocal base (r / tileNb0) (c / tileNb0) = true ->
  In (r / tileNb0, c / tileNb0) (tileUpdateAllOrigin B base tileNb0).
Proof.
  unfold lowerBandwidth, upperBandwidth.
  intros -> Hnb Hkl Hku Hr Hc Hband Hi Hj Hloc. cbn [Op_eqb] in *.
  apply in_tileUpdateAllOrigin.
  assert (Hl := ceildiv_covers (kl_ B) tileNb0 Hkl Hnb).
  assert (Hu := ceildiv_covers (ku_ B) tileNb0 Hku Hnb).
  assert (0 <= r / tileNb0) by (apply Z.div_pos; lia).
  assert (0 <= c / tileNb0) by (apply Z.div_pos; lia).
  assert (r / tileNb0 <= c / tileNb0 + ceildiv (kl_ B) tileNb0)
    by (apply tile_index_shift; lia).
  assert (c / tileNb0 <= r / tileNb0 + ceildiv (ku_ B) tileNb0)
    by (apply tile_index_shift; lia).
  repeat split; try lia. exact Hloc.
Qed.

Lemma tileUpdateAllOrigin_covers_band_witness :
  In (7 / 4, 2 / 4)
     (tileUpdateAllOrigin (mk NoTrans 5 1) (mkMatrix 3 3 (fun _ _ => 0) 0) 4).
Proof.
  apply tileUpdateAllOrigin_covers_band;
    try reflexivity; cbn; lia.
Defined.

End BandMatrixMoreFacts.

(* ====================================================================== *)
(** * More properties of the reduction tree *)

Module TreeMoreFacts.
Import Ttmlq TreeSpec TreeMore ListFacts RankFacts TreeFacts.

(** ** The participants *)

Lemma in_rank_indices A r j :
  mt A = 1 ->
  (In (r, j) (rank_indices A) <-> is_first_col A r 0 (nt A) j).
Proof.
  intros Hmt. rewrite <- (in_unsorted A r j Hmt). unfold rank_indices. split.
  - apply Permutation_in, Permutation_sym, sort_by_second_perm.
  - apply Permutation_in, sort_by_second_perm.
Qed.

(** X16.  For a panel of one row with at least one tile, the root of the
    tree, participant index 0, is the rank that owns the first tile of the
    panel, and there are at least one and at most [A.nt()] participants. *)
Theorem tree_root_owns_first_tile (A : Matrix) :
  mt A = 1 -> 1 <= nt A ->
  (exists rest, rank_indices A = (tileRank A 0 0, 0) :: rest) /\
  1 <= nranks (rank_indices A) <= nt A.
Proof.
  intros Hmt Hnt.
  assert (Hsorted := rank_indices_strictly_sorted A Hmt).
  assert (Hin : forall r j, In (r, j) (rank_indices A) ->
                            is_first_col A r 0 (nt A) j)
    by (intros r j; apply in_rank_indices; exact Hmt).
  assert (Hroot : In (tileRank A 0 0, 0) (rank_indices A)).
  { apply in_rank_indices; [exact Hmt|]. repeat split; try lia. }
  assert (Hlen : nranks (rank_indices A) <= nt A).
  { unfold nranks.
    assert (Hnd : NoDup (map snd (rank_indices A))).
    { eapply Permutation_NoDup; [|apply unsorted_snd_NoDup; exact Hmt].
      apply Permutation_map, sort_by_second_perm. }
    assert (Hincl : incl (map snd (rank_indices A)) (Zrange (nt A))).
    { intros j Hj. apply in_map_iff in Hj. destruct Hj as ([r j'] & <- & H).
      apply Hin in H. apply in_Zrange. apply H. }
    apply (NoDup_incl_length Hnd) in Hincl.
    unfold Zrange in Hincl. rewrite !length_map, length_seq in Hincl. lia. }
  destruct (rank_indices A) as [|[r0 j0] rest] eqn:E; [destruct Hroot|].
  split.
  - exists rest. f_equal.
    assert (H0 := Hin r0 j0 (or_introl eq_refl)).
    destruct H0 as (Hj0 & Hr0 & _).
    assert (j0 = 0).
    { destruct Hroot as [[= _ H] | Htail]; [exact H|].
      inversion Hsorted as [|? ? _ Hall]; subst.
      rewrite Forall_forall in Hall. specialize (Hall _ Htail).
      unfold lt_second in Hall. cbn in Hall. lia. }
    subst j0. rewrite Hr0. reflexivity.
  - split; [|exact Hlen]. unfold nranks. cbn [length]. lia.
Qed.

Lemma tree_root_owns_first_tile_witness :
  exists rest,
    rank_indices (mkMatrix 1 6 (fun _ j => Z.modulo (5 - j) 3) 0)
    = (2, 0) :: rest.
Proof.
  destruct (tree_root_owns_first_tile
              (mkMatrix 1 6 (fun _ j => Z.modulo (5 - j) 3) 0))
    as [H _]; [reflexivity | cbn; lia | exact H].
Defined.

(** ** Releasing tiles *)

Lemma role_no_tick side C tag ri s index e :
  In e (role side C tag false ri s index) -> is_tick e = false.
Proof.
  unfold role, send_then_receive_back, receive_update_send_back, sends,
    receives_back, receives, sends_back, update_task.
  intros Hin.
  destruct (index mod (2 * s) =? 0); [destruct (index + s <? N ri)|];
    repeat (apply in_app_or in Hin; destruct Hin as [Hin | Hin]);
    try (apply in_flat_map in Hin; destruct Hin as (k & _ & Hin));
    try destruct Hin;
    repeat match type of Hin with
           | context [trailing_tile ?a ?b ?c ?d] =>
               destruct (trailing_tile a b c d)
           end;
    cbn in Hin;
    repeat (destruct Hin as [<- | Hin]; [reflexivity|]);
    destruct Hin.
Qed.

(** X17.  With the tile release strategy [None] or [Slate] a run of ttmlq
    calls [tileTick] on no tile of [A], [T] or [C]. *)
Theorem no_tick_unless_asked (side : Side) (op : Op) (A C : Matrix) (tag : Z)
        (strategy : TileReleaseStrategy)
        (lv : list (Z * list Event)) (s : Z) (evs : list Event) (e : Event) :
  strategy = StrategyNone \/ strategy = StrategySlate ->
  ttmlq side op A C tag strategy = Some lv ->
  In (s, evs) lv -> In e evs -> is_tick e = false.
Proof.
  intros Hst. rewrite ttmlq_closed. intros [= <-] Hlv He.
  apply in_expected in Hlv. subst evs. unfold level_events in He.
  apply in_flat_map in He. destruct He as (index & _ & He).
  assert (Htick : call_tile_tick_of strategy = false)
    by (destruct Hst as [-> | ->]; reflexivity).
  rewrite Htick in He. exact (role_no_tick _ _ _ _ _ _ _ He).
Qed.

Lemma no_tick_unless_asked_witness :
  is_tick (CSend 0 0 0 0) = false.
Proof.
  apply (no_tick_unless_asked Right Trans (Network.A4 1) (Network.C4 1) 0
           StrategySlate
           [(1, [CRecv 0 0 0 0;
                 AGetForReading 1; TGetForReading 1; CGetForWriting 0 1;
                 Tpmlqt 1 0 0 0 1; CSend 0 0 0 0]);
            (2, [])]
           1
           [CRecv 0 0 0 0;
            AGetForReading 1; TGetForReading 1; CGetForWriting 0 1;
            Tpmlqt 1 0 0 0 1; CSend 0 0 0 0]).
  - right. reflexivity.
  - reflexivity.
  - left. reflexivity.
  - do 5 right. left. reflexivity.
Defined.

(** ** Sends and receives *)

Lemma in_local_positions side C ri index k :
  In k (local_positions side C ri index) <->
  0 <= k < k_end side C /\ holder side C ri index k = mpi_rank C.
Proof.
  unfold local_positions, holder, tileIsLocal.
  rewrite filter_In, in_Zrange, Z.eqb_eq. reflexivity.
Qed.

Ltac in_cases :=
  repeat match goal with
         | H : In _ (_ ++ _) |- _ =>
             apply in_app_or in H; destruct H as [H | H]
         | H : In _ (flat_map _ _) |- _ =>
             let k := fresh "k" in
             let Hk := fresh "Hk" in
             apply in_flat_map in H; destruct H as (k & Hk & H)
         | H : In _ (let '(_, _) := trailing_tile ?a ?b ?c ?d in _) |- _ =>
             let E := fresh "E" in
             destruct (trailing_tile a b c d) eqn:E
         | H : In _ (if ?b then _ else _) |- _ => destruct b
         | H : In _ (_ :: _) |- _ => destruct H as [H | H]
         | H : In _ [] |- _ => destruct H
         end;
  try discriminate.

Lemma in_role_send side C tag tick ri s index i j dst t :
  In (CSend i j dst t) (role side C tag tick ri s index) <->
  transfer_of side C tag ri s index i j dst t.
Proof.
  unfold role, transfer_of, send_then_receive_back, receive_update_send_back,
    sends, receives_back, receives, sends_back, update_task.
  destruct (Z.eqb_spec (index mod (2 * s)) 0) as [Hm | Hm];
    [destruct (Z.ltb_spec (index + s) (N ri)) as [Hp | Hp]|].
  - split.
    + intros Hin. in_cases.
      injection Hin as <- <- <- <-. exists k. split; [exact Hk|].
      split; [reflexivity|]. left. auto.
    + intros (k & Hk & -> & [(_ & _ & Ht & ->) | (Hne & _)]);
        [|contradiction].
      apply in_or_app. left. apply in_flat_map. exists k.
      split; [exact Hk|]. rewrite <- Ht. right. left. reflexivity.
  - split; [intros [] | intros (k & _ & _ & [(_ & Hlt & _) | (Hne & _)])];
      [lia | contradiction].
  - split.
    + intros Hin. in_cases;
        injection Hin as <- <- <- <-; exists k; (split; [exact Hk|]);
        (split; [reflexivity|]); right; auto.
    + intros (k & Hk & -> & [(He & _) | (_ & Ht & ->)]); [contradiction|].
      apply in_or_app. right. apply in_or_app. right.
      apply in_flat_map. exists k. split; [exact Hk|].
      rewrite <- Ht. left. reflexivity.
Qed.

Lemma in_role_recv side C tag tick ri s index i j src t :
  In (CRecv i j src t) (role side C tag tick ri s index) <->
  transfer_of side C tag ri s index i j src t.
Proof.
  unfold role, transfer_of, send_then_receive_back, receive_update_send_back,
    sends, receives_back, receives, sends_back, update_task.
  destruct (Z.eqb_spec (index mod (2 * s)) 0) as [Hm | Hm];
    [destruct (Z.ltb_spec (index + s) (N ri)) as [Hp | Hp]|].
  - split.
    + intros Hin. in_cases.
      injection Hin as <- <- <- <-. exists k. split; [exact Hk|].
      split; [reflexivity|]. left. auto.
    + intros (k & Hk & -> & [(_ & _ & Ht & ->) | (Hne & _)]);
        [|contradiction].
      apply in_or_app. right. apply in_flat_map. exists k.
      split; [exact Hk|]. rewrite <- Ht. right. left. reflexivity.
  - split; [intros [] | intros (k & _ & _ & [(_ & Hlt & _) | (Hne & _)])];
      [lia | contradiction].
  - split.
    + intros Hin. in_cases;
        injection Hin as <- <- <- <-; exists k; (split; [exact Hk|]);
        (split; [reflexivity|]); right; auto.
    + intros (k & Hk & -> & [(He & _) | (_ & Ht & ->)]); [contradiction|].
      apply in_or_app. left.
      apply in_flat_map. exists k. split; [exact Hk|].
      rewrite <- Ht. left. reflexivity.
Qed.

Lemma in_participants ri s index :
  In index (participants ri s) <-> 0 <= index < N ri /\ index mod s = 0.
Proof.
  unfold participants. rewrite filter_In, in_Zrange, Z.eqb_eq. reflexivity.
Qed.

Lemma in_level_send side C tag tick ri s i j peer t :
  In (CSend i j peer t) (level_events side C tag tick ri s) <->
  exists index, In index (participants ri s) /\
                transfer_of side C tag ri s index i j peer t.
Proof.
  unfold level_events. rewrite in_flat_map.
  split; intros (index & Hp & H); exists index; (split; [exact Hp|]);
    apply (in_role_send side C tag tick ri s index i j peer t); exact H.
Qed.

Lemma in_level_recv side C tag tick ri s i j peer t :
  In (CRecv i j peer t) (level_events side C tag tick ri s) <->
  exists index, In index (participants ri s) /\
                transfer_of side C tag ri s index i j peer t.
Proof.
  unfold level_events. rewrite in_flat_map.
  split; intros (index & Hp & H); exists index; (split; [exact Hp|]);
    apply (in_role_recv side C tag tick ri s index i j peer t); exact H.
Qed.

(** X18.  At every level of a run, a rank sends a tile to a peer exactly if
    it receives that tile from that peer at that level, under the same tag:
    what it sends away it receives back, and what it receives it sends
    back. *)
Theorem sends_and_receives_pair_up (side : Side) (op : Op) (A C : Matrix)
        (tag : Z) (strategy : TileReleaseStrategy)
        (lv : list (Z * list Event)) (s : Z) (evs : list Event)
        (i j peer t : Z) :
  ttmlq side op A C tag strategy = Some lv -> In (s, evs) lv ->
  (In (CSend i j peer t) evs <-> In (CRecv i j peer t) evs).
Proof.
  rewrite ttmlq_closed. intros [= <-] Hlv.
  apply in_expected in Hlv. subst evs.
  rewrite in_level_send, in_level_recv. reflexivity.
Qed.

Lemma sends_and_receives_pair_up_witness :
  In (CSend 0 0 0 0)
     [CRecv 0 0 0 0; AGetForReading 1; TGetForReading 1; CGetForWriting 0 1;
      Tpmlqt 1 0 0 0 1; CSend 0 0 0 0] <->
  In (CRecv 0 0 0 0)
     [CRecv 0 0 0 0; AGetForReading 1; TGetForReading 1; CGetForWriting 0 1;
      Tpmlqt 1 0 0 0 1; CSend 0 0 0 0].
Proof.
  apply (sends_and_receives_pair_up Right Trans (Network.A4 1) (Network.C4 1)
           0 StrategySlate
           [(1, [CRecv 0 0 0 0;
                 AGetForReading 1; TGetForReading 1; CGetForWriting 0 1;
                 Tpmlqt 1 0 0 0 1; CSend 0 0 0 0]);
            (2, [])]
           1).
  - reflexivity.
  - left. reflexivity.
Defined.

(** ** The two ends of a transfer *)

Lemma after_sender s index :
  1 <= s -> index mod s = 0 -> index mod (2 * s) = 0 ->
  (index + s) mod s = 0 /\ (index + s) mod (2 * s) <> 0.
Proof.
  intros Hs Hm H2. split.
  - rewrite <- Z.add_mod_idemp_r, Z.mod_same, Z.add_0_r by lia. exact Hm.
  - rewrite <- Z.add_mod_idemp_l, H2 by lia. cbn [Z.add].
    rewrite Z.mod_small by lia. lia.
Qed.

Lemma before_receiver s index :
  1 <= s -> 0 <= index -> index mod s = 0 -> index mod (2 * s) <> 0 ->
  s <= index /\ (index - s) mod s = 0 /\ (index - s) mod (2 * s) = 0.
Proof.
  intros Hs Hi Hm H2.
  assert (Hq : index = s * (index / s))
    by (rewrite (Z.div_mod index s) at 1; lia).
  assert (Hq0 : 0 <= index / s) by (apply Z.div_pos; lia).
  remember (index / s) as q eqn:Eq. clear Eq.
  assert (Hpar := Z.div_mod q 2 ltac:(lia)).
  assert (Hb := Z.mod_pos_bound q 2 ltac:(lia)).
  remember (q / 2) as h eqn:Eh. clear Eh.
  assert (Hodd : q mod 2 = 1).
  { destruct (Z.eq_dec (q mod 2) 0) as [E|]; [|lia].
    exfalso. apply H2.
    replace index with (h * (2 * s)) by (subst index; nia).
    apply Z.mod_mul. lia. }
  assert (Hq1 : q = 2 * h + 1) by lia.
  assert (Hh : 0 <= h) by lia.
  subst q. split; [subst index; nia|]. split.
  - replace (index - s) with (2 * h * s) by (subst index; nia).
    apply Z.mod_mul. lia.
  - replace (index - s) with (h * (2 * s)) by (subst index; nia).
    apply Z.mod_mul. lia.
Qed.

Lemma holder_on_rank side C ri me index k :
  holder side (on_rank C me) ri index k = holder side C ri index k.
Proof. reflexivity. Qed.

Lemma in_local_positions_on_rank side C ri me index k :
  In k (local_positions side (on_rank C me) ri index) <->
  0 <= k < k_end side C /\ holder side C ri index k = me.
Proof.
  rewrite in_local_positions. destruct side; reflexivity.
Qed.

(** The transfer a rank has with a peer is a transfer the peer has with the
    rank, for the partner index. *)
Lemma transfer_has_other_end side C tag ri s index me i j peer t :
  1 <= s -> In index (participants ri s) ->
  transfer_of side (on_rank C me) tag ri s index i j peer t ->
  exists index', In index' (participants ri s) /\
                 transfer_of side (on_rank C peer) tag ri s index' i j me t.
Proof.
  intros Hs Hp (k & Hk & -> & Hcase).
  apply in_participants in Hp. destruct Hp as [Hi Hm].
  apply in_local_positions_on_rank in Hk. destruct Hk as [Hk Hme].
  destruct Hcase as [(H2 & Hlt & Ht & ->) | (H2 & Ht & ->)].
  - destruct (after_sender s index Hs Hm H2) as [Hm' H2'].
    exists (index + s). split; [apply in_participants; split; [lia | exact Hm']|].
    exists k. split; [apply in_local_positions_on_rank; split;
                      [exact Hk | reflexivity]|].
    split; [reflexivity|]. right.
    replace (index + s - s) with index by lia.
    rewrite !holder_on_rank. auto.
  - destruct (before_receiver s index Hs ltac:(lia) Hm H2) as (Hge & Hm' & H2').
    exists (index - s).
    split; [apply in_participants; split; [lia | exact Hm']|].
    exists k. split; [apply in_local_positions_on_rank; split;
                      [exact Hk | reflexivity]|].
    split; [reflexivity|]. left.
    replace (index - s + s) with index by lia.
    rewrite !holder_on_rank. unfold N in *. repeat split; auto; lia.
Qed.

Lemma expected_step_positive side op C tag tick ri s evs :
  In (s, evs) (expected side op C tag tick ri) -> 1 <= s.
Proof.
  unfold expected. rewrite in_map_iff. intros (s' & [= <- _] & Hs).
  assert (H := schedule_positive (root_to_leaf side op)
                 (Z.log2_up (Z.of_nat (length ri))) (Z.log2_up_nonneg _)).
  rewrite Forall_forall in H. apply H, Hs.
Qed.

Lemma expected_level side op C C' tag tick ri s evs :
  In (s, evs) (expected side op C tag tick ri) ->
  In (s, level_events side C' tag tick ri s) (expected side op C' tag tick ri).
Proof.
  unfold expected. rewrite !in_map_iff. intros (s' & [= <- _] & Hs).
  exists s'. split; [reflexivity | exact Hs].
Qed.

(** X19.  When all ranks run ttmlq on the same matrices with the same tag,
    every send has its receive and every receive its send: if rank [me]
    sends tile [(i, j)] to rank [peer] at the level with step [s], then
    rank [peer] receives tile [(i, j)] from rank [me] at its level with step
    [s], and if [me] receives the tile from [peer], then [peer] sends it to
    [me] at that level. *)
Theorem transfers_are_matched (side : Side) (op : Op) (A C : Matrix)
        (tag : Z) (strategy : TileReleaseStrategy) (me peer : Z)
        (lv lv' : list (Z * list Event)) (s : Z) (evs : list Event)
        (i j t : Z) :
  ttmlq side op A (on_rank C me) tag strategy = Some lv ->
  ttmlq side op A (on_rank C peer) tag strategy = Some lv' ->
  In (s, evs) lv ->
  exists evs',
    In (s, evs') lv' /\
    (In (CSend i j peer t) evs -> In (CRecv i j me t) evs') /\
    (In (CRecv i j peer t) evs -> In (CSend i j me t) evs').
Proof.
  rewrite !ttmlq_closed. intros [= <-] [= <-] Hlv.
  assert (Hs := expected_step_positive _ _ _ _ _ _ _ _ Hlv).
  exists (level_events side (on_rank C peer) tag (call_tile_tick_of strategy)
                       (rank_indices A) s).
  split; [exact (expected_level _ _ _ (on_rank C peer) _ _ _ _ _ Hlv)|].
  apply in_expected in Hlv. subst evs.
  split; intros H.
  - apply in_level_send in H. destruct H as (index & Hp & H).
    apply in_level_recv.
    exact (transfer_has_other_end _ _ _ _ _ _ _ _ _ _ _ Hs Hp H).
  - apply in_level_recv in H. destruct H as (index & Hp & H).
    apply in_level_send.
    exact (transfer_has_other_end _ _ _ _ _ _ _ _ _ _ _ Hs Hp H).
Qed.

Lemma transfers_are_matched_witness :
  exists evs',
    In (2, evs')
       [(1, [CGetForWriting 0 2; CSend 0 2 3 0;
             CAssertModified 0 2; CRecv 0 2 3 0]);
        (2, [CRecv 0 0 0 0;
             AGetForReading 2; TGetForReading 2; CGetForWriting 0 2;
             Tpmlqt 2 0 0 0 2; ATick 2; TTick 2;
             CSend 0 0 0 0; CTick 0 0])] /\
    (In (CSend 0 0 2 0)
        [CGetForWriting 0 0; CSend 0 0 2 0; CAssertModified 0 0;
         CRecv 0 0 2 0] ->
     In (CRecv 0 0 0 0) evs') /\
    (In (CRecv 0 0 2 0)
        [CGetForWriting 0 0; CSend 0 0 2 0; CAssertModified 0 0;
         CRecv 0 0 2 0] ->
     In (CSend 0 0 0 0) evs').
Proof.
  apply (transfers_are_matched Right Trans (Network.A4 0) (Network.C4 0) 0
           StrategyAll 0 2
           [(1, [CGetForWriting 0 0; CSend 0 0 1 0; CAssertModified 0 0;
                 CRecv 0 0 1 0]);
            (2, [CGetForWriting 0 0; CSend 0 0 2 0; CAssertModified 0 0;
                 CRecv 0 0 2 0])]).
  - reflexivity.
  - reflexivity.
  - right. left. reflexivity.
Defined.

(** ** The tree *)

Lemma length_filter_map {X Y : Type} (f : Y -> bool) (g : X -> Y) l :
  length (filter f (map g l)) = length (filter (fun x => f (g x)) l).
Proof.
  induction l as [|x l IH]; cbn; [reflexivity|].
  destruct (f (g x)); cbn; rewrite IH; reflexivity.
Qed.

Lemma is_receiver_double i s :
  0 < s -> is_receiver (2 * i) (2 * s) = is_receiver i s.
Proof.
  intros Hs. unfold is_receiver.
  rewrite !Z.mul_mod_distr_l by lia.
  destruct (Z.eqb_spec (i mod s) 0), (Z.eqb_spec (2 * (i mod s)) 0);
    try lia;
    destruct (Z.eqb_spec (i mod (2 * s)) 0),
             (Z.eqb_spec (2 * (i mod (2 * s))) 0);
    try lia; reflexivity.
Qed.

Lemma is_receiver_odd i t :
  i mod 2 = 1 -> 0 <= t -> is_receiver i (2 ^ Z.succ t) = false.
Proof.
  intros Hodd Ht. unfold is_receiver.
  assert (Hpos : 0 < 2 ^ t) by (apply Z.pow_pos_nonneg; lia).
  destruct (Z.eqb_spec (i mod 2 ^ Z.succ t) 0) as [E|]; [|reflexivity].
  exfalso. rewrite Z.pow_succ_r in E by lia.
  apply Z.mod_divide in E; [|lia]. destruct E as [q Hq].
  assert (i mod 2 = 0)
    by (subst i; replace (q * (2 * 2 ^ t)) with (q * 2 ^ t * 2) by lia;
        apply Z.mod_mul; lia).
  lia.
Qed.

(** Below [2^L] every positive index is a receiver at exactly one of the
    steps [1, 2, ..., 2^(L-1)]. *)
Lemma receiver_level_unique L index :
  0 < index < 2 ^ Z.of_nat L ->
  length (filter (fun t => is_receiver index (2 ^ Z.of_nat t)) (seq 0 L))
  = 1%nat.
Proof.
  revert index. induction L as [|L IH]; intros index Hi; [cbn in Hi; lia|].
  cbn [seq filter]. rewrite <- seq_shift.
  assert (Hdm := Z.div_mod index 2 ltac:(lia)).
  assert (Hb := Z.mod_pos_bound index 2 ltac:(lia)).
  rewrite Nat2Z.inj_succ, Z.pow_succ_r in Hi by lia.
  destruct (Z.eq_dec (index mod 2) 0) as [Heven | Hodd].
  - assert (E0 : is_receiver index (2 ^ Z.of_nat 0) = false).
    { unfold is_receiver. cbn [Z.of_nat Z.pow Z.pow_pos Pos.iter Z.mul Pos.mul].
      change (2 * 1) with 2. rewrite Heven. cbn. apply andb_false_r. }
    rewrite E0, length_filter_map.
    rewrite <- (IH (index / 2)) by lia. f_equal.
    apply filter_ext. intros t.
    rewrite Nat2Z.inj_succ, Z.pow_succ_r by lia.
    replace index with (2 * (index / 2)) at 1 by lia.
    apply is_receiver_double. apply Z.pow_pos_nonneg; lia.
  - assert (E0 : is_receiver index (2 ^ Z.of_nat 0) = true).
    { unfold is_receiver. cbn [Z.of_nat Z.pow Z.pow_pos Pos.iter Z.mul Pos.mul].
      change (2 * 1) with 2. rewrite Z.mod_1_r.
      destruct (Z.eqb_spec (index mod 2) 0); [contradiction | reflexivity]. }
    rewrite E0. cbn [length]. f_equal.
    rewrite filter_none; [reflexivity|].
    intros t Ht. apply in_map_iff in Ht. destruct Ht as (t' & <- & _).
    rewrite Nat2Z.inj_succ. apply is_receiver_odd; lia.
Qed.

(** In a strictly sorted list of participants the block columns grow with
    the index. *)
Lemma sorted_nth_lt l d :
  StronglySorted lt_second l ->
  forall a b, (a < b < length l)%nat ->
              snd (nth a l d) < snd (nth b l d).
Proof.
  induction 1 as [|x l Hs IH Hall]; intros a b Hab; [cbn in Hab; lia|].
  destruct b as [|b]; [lia|]. cbn [length] in Hab.
  destruct a as [|a]; cbn [nth].
  - rewrite Forall_forall in Hall. apply (Hall (nth b l d)).
    apply nth_In. lia.
  - apply IH. lia.
Qed.

Lemma first_column_injective A i i' :
  mt A = 1 ->
  0 <= i < N (rank_indices A) -> 0 <= i' < N (rank_indices A) ->
  first_column (rank_indices A) i = first_column (rank_indices A) i' ->
  i = i'.
Proof.
  intros Hmt Hi Hi' Heq. unfold N in *.
  assert (Hs := rank_indices_strictly_sorted A Hmt).
  unfold first_column in Heq.
  destruct (Z.lt_trichotomy i i') as [Hlt | [Heq' | Hgt]]; [|exact Heq'|].
  - assert (H := sorted_nth_lt _ (0, 0) Hs (Z.to_nat i) (Z.to_nat i')
                   ltac:(lia)).
    lia.
  - assert (H := sorted_nth_lt _ (0, 0) Hs (Z.to_nat i') (Z.to_nat i)
                   ltac:(lia)).
    lia.
Qed.

(** The kernel is called in the role of the receiver only, with the panel
    tiles of the index, on the trailing tiles the rank owns. *)
Lemma kernel_in_role side C tag tick ri s index r i1 j1 i j :
  In (Tpmlqt r i1 j1 i j) (role side C tag tick ri s index) ->
  index mod (2 * s) <> 0 /\ r = first_column ri index /\
  exists k, In k (local_positions side C ri index) /\
            (i, j) = trailing_tile side ri index k.
Proof.
  unfold role, send_then_receive_back, receive_update_send_back, sends,
    receives_back, receives, sends_back, update_task.
  intros Hin.
  destruct (Z.eqb_spec (index mod (2 * s)) 0) as [Hm | Hm];
    [destruct (index + s <? N ri)|];
    in_cases.
  injection Hin as <- <- <- <- <-.
  split; [exact Hm|]. split; [reflexivity|].
  exists k. split; [exact Hk | symmetry; assumption].
Qed.

Lemma role_has_kernel side C tag tick ri s index k :
  index mod (2 * s) <> 0 -> In k (local_positions side C ri index) ->
  exists e, In e (role side C tag tick ri s index) /\
            is_kernel_on (first_column ri index)
                         (trailing_tile side ri index k) e = true.
Proof.
  intros Hm Hk.
  exists (Tpmlqt (first_column ri index)
                 (fst (trailing_tile side ri (index - s) k))
                 (snd (trailing_tile side ri (index - s) k))
                 (fst (trailing_tile side ri index k))
                 (snd (trailing_tile side ri index k))).
  split.
  - unfold role.
    destruct (Z.eqb_spec (index mod (2 * s)) 0); [contradiction|].
    unfold receive_update_send_back.
    apply in_or_app. right. apply in_or_app. left.
    apply in_flat_map. exists k. split; [exact Hk|].
    unfold update_task.
    destruct (trailing_tile side ri index k),
             (trailing_tile side ri (index - s) k).
    apply in_or_app. left. cbn. auto.
  - cbn. rewrite !Z.eqb_refl. reflexivity.
Qed.

(** At a level with a positive step the kernel is called on a trailing
    tile of an index exactly if the index takes the branch of the
    receiver. *)
Lemma combines_level side C tag tick A s index k :
  mt A = 1 -> 0 <= index < N (rank_indices A) ->
  In k (local_positions side C (rank_indices A) index) ->
  combines (first_column (rank_indices A) index)
           (trailing_tile side (rank_indices A) index k)
           (s, level_events side C tag tick (rank_indices A) s)
  = is_receiver index s.
Proof.
  intros Hmt Hi Hk. apply Bool.eq_true_iff_eq.
  unfold combines, is_receiver. cbn [snd].
  rewrite existsb_exists, andb_true_iff, negb_true_iff, Z.eqb_eq, Z.eqb_neq.
  split.
  - intros (e & Hin & He).
    destruct e; try discriminate. cbn in He.
    apply andb_true_iff in He. destruct He as [He _].
    apply andb_true_iff in He. destruct He as [Hr _].
    apply Z.eqb_eq in Hr.
    unfold level_events in Hin. apply in_flat_map in Hin.
    destruct Hin as (index' & Hp & Hin).
    apply in_participants in Hp. destruct Hp as [Hi' Hm'].
    apply kernel_in_role in Hin. destruct Hin as (H2 & Hfc & _).
    assert (index' = index)
      by (apply (first_column_injective A); try assumption; congruence).
    subst index'. split; assumption.
  - intros [Hm H2].
    destruct (role_has_kernel side C tag tick (rank_indices A) s index k
                              H2 Hk) as (e & Hin & He).
    exists e. split; [|exact He].
    unfold level_events. apply in_flat_map. exists index.
    split; [|exact Hin]. apply in_participants. split; assumption.
Qed.

(** X20.  For a panel of one row, the levels of a run form a tree over the
    participants: a trailing tile the rank owns in the block row or column
    of a participant index other than 0 is handed to the kernel, with the
    panel tiles of that index, at exactly one level of the run, and a
    trailing tile of index 0, the root, at none. *)
Theorem every_index_is_combined_once (side : Side) (op : Op) (A C : Matrix)
        (tag : Z) (strategy : TileReleaseStrategy) (index k : Z) :
  mt A = 1 ->
  0 <= index < Z.of_nat (length (rank_indices A)) ->
  In k (local_positions side C (rank_indices A) index) ->
  exists lv,
    ttmlq side op A C tag strategy = Some lv /\
    length (filter (combines (first_column (rank_indices A) index)
                             (trailing_tile side (rank_indices A) index k))
                   lv)
    = if index =? 0 then 0%nat else 1%nat.
Proof.
  intros Hmt Hi Hk. eexists. split; [apply ttmlq_closed|].
  unfold expected. rewrite length_filter_map.
  rewrite (filter_ext _ (is_receiver index))
    by (intros s; apply (combines_level side C tag _ A s index k);
        assumption).
  set (L := Z.log2_up (Z.of_nat (length (rank_indices A)))).
  assert (Hlen : length (filter (is_receiver index) (schedule false L))
                 = if index =? 0 then 0%nat else 1%nat).
  { destruct (Z.eqb_spec index 0) as [-> | Hne].
    - rewrite filter_none; [reflexivity|]. intros s _.
      unfold is_receiver. rewrite !Zmod_0_l. reflexivity.
    - unfold schedule, Zrange. rewrite map_map, length_filter_map.
      apply receiver_level_unique.
      rewrite Z2Nat.id by apply Z.log2_up_nonneg.
      assert (H := log2_up_is_ceil_log2
                     (Z.of_nat (length (rank_indices A))) ltac:(lia)).
      destruct H as (_ & H & _). fold L in H. lia. }
  destruct (root_to_leaf side op); [|exact Hlen].
  rewrite schedule_reverse, filter_rev, length_rev. exact Hlen.
Qed.

Lemma every_index_is_combined_once_witness :
  exists lv,
    ttmlq Right Trans (Network.A4 3) (Network.C4 3) 0 StrategyAll = Some lv /\
    length (filter (combines 3 (0, 3)) lv) = 1%nat.
Proof.
  apply (every_index_is_combined_once Right Trans (Network.A4 3)
           (Network.C4 3) 0 StrategyAll 3 0).
  - reflexivity.
  - vm_compute. split; [discriminate | reflexivity].
  - vm_compute. left. reflexivity.
Defined.

(** ** Writing *)

Lemma role_writes_local side C tag tick ri s index e i j :
  In e (role side C tag tick ri s index) ->
  written_tile e = Some (i, j) -> tileIsLocal C i j = true.
Proof.
  unfold role, send_then_receive_back, receive_update_send_back, sends,
    receives_back, receives, sends_back, update_task.
  intros Hin Hw.
  destruct (index mod (2 * s) =? 0); [destruct (index + s <? N ri)|];
    in_cases; subst e; cbn in Hw; try discriminate;
    injection Hw as <- <-;
    apply filter_In in Hk; destruct Hk as [_ Hk];
    repeat match goal with
           | E : trailing_tile _ _ _ _ = _ |- _ => rewrite E in Hk; clear E
           end;
    exact Hk.
Qed.

(** X21.  A run of ttmlq acquires for writing, and gives to the kernel as
    the tile to overwrite in place, only tiles of [C] that are local to the
    rank. *)
Theorem only_local_tiles_are_written (side : Side) (op : Op) (A C : Matrix)
        (tag : Z) (strategy : TileReleaseStrategy)
        (lv : list (Z * list Event)) (s : Z) (evs : list Event)
        (e : Event) (i j : Z) :
  ttmlq side op A C tag strategy = Some lv ->
  In (s, evs) lv -> In e evs ->
  written_tile e = Some (i, j) -> tileIsLocal C i j = true.
Proof.
  rewrite ttmlq_closed. intros [= <-] Hlv He.
  apply in_expected in Hlv. subst evs. unfold level_events in He.
  apply in_flat_map in He. destruct He as (index & _ & He).
  exact (role_writes_local _ _ _ _ _ _ _ _ _ _ He).
Qed.

Lemma only_local_tiles_are_written_witness :
  tileIsLocal (Network.C4 1) 0 1 = true.
Proof.
  apply (only_local_tiles_are_written Right Trans (Network.A4 1)
           (Network.C4 1) 0 StrategySlate
           [(1, [CRecv 0 0 0 0;
                 AGetForReading 1; TGetForReading 1; CGetForWriting 0 1;
                 Tpmlqt 1 0 0 0 1; CSend 0 0 0 0]);
            (2, [])]
           1
           [CRecv 0 0 0 0;
            AGetForReading 1; TGetForReading 1; CGetForWriting 0 1;
            Tpmlqt 1 0 0 0 1; CSend 0 0 0 0]
           (Tpmlqt 1 0 0 0 1)).
  - reflexivity.
  - left. reflexivity.
  - do 4 right. left. reflexivity.
  - reflexivity.
Defined.

End TreeMoreFacts.
